(** * A shallow embedding of [src/trie.py]: a trie with autocomplete and
      frequency ranking.

    Modelling decisions, all taken from the source:

    - a word (a Python [str]) is the sequence of its one-character symbols,
      [list ascii]; [built + c] is [built ++ [c]];
    - a frequency (a Python number, [0.0] by default) is an integer of [Z]:
      only its order, its equality and its negation are used by the code;
    - [TrieNode.children] is a Python [dict], which iterates in insertion
      order: an association list in insertion order. A dict has unique keys;
      [well_formed] says so of every dict of a tree, and the states built by
      [insert] and [remove] from [Trie()] are well formed;
    - every node is owned by exactly one parent dict, so the mutable tree is
      a tree value, and a method that mutates it returns the new value:
      methods are computations of the state monad [M] over [Trie];
    - [heapq] keeps the smallest pair at [heap[0]]: the heap is the list of
      its pairs in ascending order. The final [heap.sort] only depends on the
      pairs held, not on their layout. *)

From Stdlib Require Import String.
From Stdlib Require Import ZArith Ascii Bool List Lia Permutation Sorted.
Import ListNotations.
Local Open Scope Z_scope.
Local Open Scope list_scope.

Set Implicit Arguments.

(** ** Symbols, words and dicts *)

Definition word : Type := list ascii.

(** A string literal as a word. *)
Definition w (s : String.string) : word := String.list_ascii_of_string s.
Arguments w s%_string.

Definition word_eqb (a b : word) : bool :=
  if list_eq_dec ascii_dec a b then true else false.

(** [a < b] on Python strings: lexicographic on code points. *)
Fixpoint word_ltb (a b : word) : bool :=
  match a, b with
  | [], [] => false
  | [], _ :: _ => true
  | _ :: _, [] => false
  | x :: a', y :: b' =>
      if Ascii.eqb x y then word_ltb a' b'
      else (N_of_ascii x <? N_of_ascii y)%N
  end.

Section Dict.
Variable V : Type.

(** [d.get(ch)] *)
Fixpoint dict_get (ch : ascii) (d : list (ascii * V)) : option V :=
  match d with
  | [] => None
  | (c, v) :: rest => if Ascii.eqb c ch then Some v else dict_get ch rest
  end.

(** [d[ch] = v]: an existing key keeps its place, a new one goes last. *)
Fixpoint dict_set (ch : ascii) (v : V) (d : list (ascii * V))
  : list (ascii * V) :=
  match d with
  | [] => [(ch, v)]
  | (c, v0) :: rest =>
      if Ascii.eqb c ch then (c, v) :: rest
      else (c, v0) :: dict_set ch v rest
  end.

(** [del d[ch]] *)
Definition dict_del (ch : ascii) (d : list (ascii * V)) : list (ascii * V) :=
  filter (fun p => negb (Ascii.eqb (fst p) ch)) d.
End Dict.

(** ** The data model *)

(** [class TrieNode]: [children], [is_end], [freq]. *)
Local Unset Elimination Schemes.
Inductive TrieNode : Type :=
  Node (children : list (ascii * TrieNode)) (is_end : bool) (freq : Z).
Local Set Elimination Schemes.

Definition children (n : TrieNode) := let 'Node cs _ _ := n in cs.
Definition is_end (n : TrieNode) := let 'Node _ e _ := n in e.
Definition freq (n : TrieNode) := let 'Node _ _ f := n in f.

(** [TrieNode()] *)
Definition TrieNode_new : TrieNode := Node [] false 0.

(** [class Trie]: the root and the two counters. *)
Record Trie : Type := mkTrie {
  root : TrieNode;
  _count_words : Z;
  _count_nodes : Z
}.

(** [Trie()] *)
Definition Trie_new : Trie := mkTrie TrieNode_new 0 1.

(** ** The state monad of method calls *)

Definition M (A : Type) : Type := Trie -> A * Trie.

Definition ret {A} (a : A) : M A := fun self => (a, self).
Definition bind {A B} (m : M A) (f : A -> M B) : M B :=
  fun self => let (a, self') := m self in f a self'.
Definition get : M Trie := fun self => (self, self).
Definition put (t : Trie) : M unit := fun _ => (tt, t).

Notation "x <- m ;; f" := (bind m (fun x => f))
  (at level 61, m at next level, right associativity).

(** The value a call returns, and the state it leaves. *)
Definition returns {A} (m : M A) (self : Trie) : A := fst (m self).
Definition after {A} (m : M A) (self : Trie) : Trie := snd (m self).

(** ** [_walk] *)

(** The label ['']  that [_walk] pairs with the root; the pruning loop stops
    at [i = 1] and never deletes under it. *)
Definition no_char : ascii := "000"%char.

(** The [for ch in text] loop of [_walk], from [current] with [path] so far. *)
Fixpoint walk_loop (text : word) (current : TrieNode)
    (path : list (TrieNode * ascii))
  : option TrieNode * list (TrieNode * ascii) :=
  match text with
  | [] => (Some current, path)
  | ch :: rest =>
      match dict_get ch (children current) with
      | None => (None, [])
      | Some nxt => walk_loop rest nxt (path ++ [(nxt, ch)])
      end
  end.

Definition _walk (self : Trie) (text : word)
  : option TrieNode * list (TrieNode * ascii) :=
  walk_loop text (root self) [(root self, no_char)].

(** ** [insert] *)

(** The loop of [insert] followed by the update of the last node, from
    [node]: the node as the call leaves it, the number of nodes created and
    whether the word is new. *)
Fixpoint insert_loop (word : word) (fr : Z) (node : TrieNode)
  : TrieNode * Z * bool :=
  match word with
  | [] => (Node (children node) true fr, 0, negb (is_end node))
  | ch :: rest =>
      let '(nxt, made) :=
        match dict_get ch (children node) with
        | None => (TrieNode_new, 1)
        | Some nxt => (nxt, 0)
        end in
      let '(nxt', created, fresh) := insert_loop rest fr nxt in
      (Node (dict_set ch nxt' (children node)) (is_end node) (freq node),
       made + created, fresh)
  end.

Definition insert (word : word) (fr : Z) : M unit :=
  self <- get ;;
  let '(root', created, fresh) := insert_loop word fr (root self) in
  put {| root := root';
         _count_words := _count_words self + (if fresh then 1 else 0);
         _count_nodes := _count_nodes self + created |}.

(** ** [remove] *)

(** [child.children or child.is_end]: the node is still in use. *)
Definition in_use (n : TrieNode) : bool :=
  match children n with [] => false | _ :: _ => true end || is_end n.

(** The state of the pruning loop: the node [path[i]] as it is now, its
    symbol, whether the loop is still running (no [break] yet) and how many
    nodes were deleted. *)
Definition prune_state : Type := (TrieNode * ascii * bool * Z)%type.

(** One iteration of [for i in range(len(path) - 1, 0, -1)], with
    [path[i - 1] = (parent, ch_parent)]. The source mutates [child] in place,
    which its parent sees through the shared reference; here the parent is
    rebuilt around the child as it is now. After [break] nothing is deleted. *)
Definition prune_step (st : prune_state) (entry : TrieNode * ascii)
  : prune_state :=
  let '(child, ch_child, running, removed) := st in
  let '(parent, ch_parent) := entry in
  let e := is_end parent in
  let f := freq parent in
  if running && negb (in_use child)
  then (Node (dict_del ch_child (children parent)) e f,
        ch_parent, true, removed + 1)
  else (Node (dict_set ch_child child (children parent)) e f,
        ch_parent, false, removed).

Definition remove (word : word) : M bool :=
  self <- get ;;
  let '(found, path) := _walk self word in
  match found with
  | None => ret false
  | Some node =>
      if negb (is_end node) then ret false
      else
        let node' := Node (children node) false 0 in
        let ch_last := snd (last path (node, no_char)) in
        let '(root', _, _, removed) :=
          fold_left prune_step (rev (removelast path))
                    (node', ch_last, true, 0) in
        _ <- put {| root := root';
                    _count_words := _count_words self - 1;
                    _count_nodes := _count_nodes self - removed |} ;;
        ret true
  end.

(** ** [contains] *)

Definition contains (word : word) : M bool :=
  self <- get ;;
  match fst (_walk self word) with
  | None => ret false
  | Some node => ret (is_end node)
  end.

(** ** [complete] *)

(** A pair [(node.freq, built)] held by the heap. *)
Definition entry : Type := (Z * word)%type.

(** [a < b] on Python tuples: the first components that differ decide. *)
Definition entry_ltb (a b : entry) : bool :=
  (fst a <? fst b) || ((fst a =? fst b) && word_ltb (snd a) (snd b)).

(** [heapq.heappush(heap, item)] *)
Fixpoint heappush (heap : list entry) (item : entry) : list entry :=
  match heap with
  | [] => [item]
  | x :: rest =>
      if entry_ltb item x then item :: heap else x :: heappush rest item
  end.

(** [heapq.heappushpop(heap, item)]: the pair returned and the heap left. *)
Definition heappushpop (heap : list entry) (item : entry)
  : entry * list entry :=
  match heap with
  | x :: rest =>
      if entry_ltb x item then (x, heappush rest item) else (item, heap)
  | [] => (item, heap)
  end.

Section Sorting.
Variable A : Type.
Variable ltb : A -> A -> bool.

(** Stable insertion: [x] goes after the elements that are not above it. *)
Fixpoint insert_sorted (x : A) (l : list A) : list A :=
  match l with
  | [] => [x]
  | y :: rest => if ltb x y then x :: l else y :: insert_sorted x rest
  end.

Definition sort_with (l : list A) : list A :=
  fold_left (fun acc x => insert_sorted x acc) l [].

(** [a <= b] for the order [ltb]: [b] is not below [a]. *)
Definition not_above (a b : A) : Prop := ltb b a = false.
End Sorting.

(** [sorted(node.children)], each key with what the loop does with its node. *)
Definition sorted_children {B} (l : list (ascii * B)) : list (ascii * B) :=
  sort_with (fun a b => (N_of_ascii (fst a) <? N_of_ascii (fst b))%N) l.

(** What [explore] does with a pair at a node that ends a word: push it
    while the heap holds fewer than [k] pairs, push it and pop the smallest
    otherwise. *)
Definition offer (k : Z) (heap : list entry) (pair : entry) : list entry :=
  if Z.of_nat (length heap) <? k then heappush heap pair
  else snd (heappushpop heap pair).

(** [explore(node, built)], with the heap of the enclosing call threaded
    through. The children are visited in the order of [sorted]; each key
    comes with the visit of its node. *)
Fixpoint explore (k : Z) (node : TrieNode) : word -> list entry -> list entry :=
  fun built heap =>
    let 'Node cs e f := node in
    let heap := if e then offer k heap (f, built) else heap in
    fold_left (fun h (visit : ascii * (word -> list entry -> list entry)) =>
                 snd visit (built ++ [fst visit]) h)
              (sorted_children (map (fun p => (fst p, explore k (snd p))) cs))
              heap.

(** The key of the final sort, [(-x[0], x[1])]. *)
Definition sort_key (x : entry) : entry := (- fst x, snd x).

(** [a < b] under the key of the final sort: a higher score first, then the
    lexicographically smaller word. *)
Definition key_ltb (a b : entry) : bool := entry_ltb (sort_key a) (sort_key b).

Definition complete (prefix : word) (k : Z) : M (list word) :=
  self <- get ;;
  match fst (_walk self prefix) with
  | None => ret []
  | Some start =>
      let heap := explore k start prefix [] in
      let heap := sort_with key_ltb heap in
      ret (map snd heap)
  end.

(** ** [stats] *)

(** [max] of a non-empty sequence; the source only calls it on one. *)
Definition py_max (l : list Z) : Z :=
  match l with
  | [] => 0
  | x :: rest => fold_left Z.max rest x
  end.

Fixpoint height (node : TrieNode) : Z :=
  let 'Node cs _ _ := node in
  match cs with
  | [] => 0
  | _ :: _ => 1 + py_max (map (fun p => height (snd p)) cs)
  end.

Definition stats : M (Z * Z * Z) :=
  self <- get ;;
  ret (_count_words self, height (root self), _count_nodes self).

(** ** [items] *)

(** [dfs(node, sofar)], with the list [collected] threaded through. *)
Fixpoint dfs (node : TrieNode) (sofar : word) (collected : list (word * Z))
  : list (word * Z) :=
  let 'Node cs e f := node in
  let collected := if e then collected ++ [(sofar, f)] else collected in
  fold_left (fun acc p => dfs (snd p) (sofar ++ [fst p]) acc) cs collected.

Definition items : M (list (word * Z)) :=
  self <- get ;;
  ret (dfs (root self) [] []).

(** ** What a state holds: definitions used by the statements *)

(** The node [_walk] returns, without the path. *)
Fixpoint walk_node (text : word) (current : TrieNode) : option TrieNode :=
  match text with
  | [] => Some current
  | ch :: rest =>
      match dict_get ch (children current) with
      | None => None
      | Some nxt => walk_node rest nxt
      end
  end.

(** The score stored for a word, if the word is stored. *)
Definition lookup (text : word) (node : TrieNode) : option Z :=
  match walk_node text node with
  | Some final => if is_end final then Some (freq final) else None
  | None => None
  end.

(** Whether a word is stored under [node]: what [contains] returns. *)
Definition stored (text : word) (node : TrieNode) : bool :=
  match walk_node text node with
  | Some final => is_end final
  | None => false
  end.

(** [remove] from [node], as a recursion on the word: the node as the call
    leaves it, whether the pruning loop is still running when it comes back
    up to [node], and the number of nodes deleted below it. [None] when the
    call returns [False]. *)
Fixpoint remove_at (text : word) (node : TrieNode)
  : option (TrieNode * bool * Z) :=
  match text with
  | [] =>
      if is_end node then Some (Node (children node) false 0, true, 0)
      else None
  | ch :: rest =>
      match dict_get ch (children node) with
      | None => None
      | Some nxt =>
          match remove_at rest nxt with
          | None => None
          | Some (nxt', running, removed) =>
              let '(node', _, running', removed') :=
                prune_step (nxt', ch, running, removed) (node, no_char) in
              Some (node', running', removed')
          end
      end
  end.

(** The pairs [explore] offers to the heap, in the order of its visits. *)
Fixpoint candidates (node : TrieNode) : word -> list entry :=
  fun built =>
    let 'Node cs e f := node in
    (if e then [(f, built)] else []) ++
    flat_map (fun visit : ascii * (word -> list entry) =>
                snd visit (built ++ [fst visit]))
             (sorted_children (map (fun p => (fst p, candidates (snd p))) cs)).

(** The nodes reachable from [n], by direct traversal; [n] comes first. *)
Fixpoint nodes (n : TrieNode) : list TrieNode :=
  let 'Node cs _ _ := n in
  n :: flat_map (fun p => nodes (snd p)) cs.

(** The nodes below a dict of children. *)
Definition below (cs : list (ascii * TrieNode)) : list TrieNode :=
  flat_map (fun p => nodes (snd p)) cs.

(** What [dfs] appends below a dict of children. *)
Definition dfs_below (sofar : word) (cs : list (ascii * TrieNode))
  : list (word * Z) :=
  flat_map (fun p => dfs (snd p) (sofar ++ [fst p]) []) cs.

Fixpoint distinct (l : list ascii) : bool :=
  match l with
  | [] => true
  | c :: rest => negb (existsb (Ascii.eqb c) rest) && distinct rest
  end.

(** Every dict of the tree has unique keys, as a Python dict does. *)
Definition well_formed (n : TrieNode) : bool :=
  forallb (fun m => distinct (map fst (children m))) (nodes n).

(** The length of the longest word of a list of items, [0] for none. *)
Definition max_length (l : list (word * Z)) : Z :=
  fold_right Z.max 0 (map (fun p => Z.of_nat (length (fst p))) l).

(** The heap after the pairs [seen] were offered: in ascending order, of
    size [min(k, len(seen))], and every pair that was dropped is not above
    any pair that is held. *)
Definition selection (k : Z) (seen heap : list entry) : Prop :=
  StronglySorted (not_above entry_ltb) heap /\
  Z.of_nat (length heap) = Z.min k (Z.of_nat (length seen)) /\
  exists dropped,
    Permutation (heap ++ dropped) seen /\
    forall x d, In x heap -> In d dropped -> not_above entry_ltb d x.

(** [word.startswith(prefix)] *)
Fixpoint starts_with (prefix word : word) : bool :=
  match prefix, word with
  | [], _ => true
  | _ :: _, [] => false
  | x :: prefix', y :: word' => Ascii.eqb x y && starts_with prefix' word'
  end.

(** [prefix] is a prefix of [word]. *)
Definition extends (prefix word : word) : Prop :=
  exists suffix, word = prefix ++ suffix.

(** The calls that mutate, and the states they reach from [Trie()]. *)
Inductive op : Type :=
| Insert (word : word) (fr : Z)
| Remove (word : word).

Definition run_op (self : Trie) (o : op) : Trie :=
  match o with
  | Insert word fr => after (insert word fr) self
  | Remove word => after (remove word) self
  end.

Definition run_ops (ops : list op) : Trie := fold_left run_op ops Trie_new.

(** The scenario of the specification: four inserts into [Trie()]. *)
Definition scenario : Trie :=
  after (insert (w "dog") 9)
    (after (insert (w "cart") 3)
       (after (insert (w "car") 3)
          (after (insert (w "cat") 5) Trie_new))).

(** Two words with the same score. *)
Definition tied : Trie :=
  after (insert (w "b") 1) (after (insert (w "a") 1) Trie_new).

(** What every state built by [insert] and [remove] satisfies: unique keys,
    no unused node below the root, and counters that count. *)
Definition invariant (t : Trie) : Prop :=
  well_formed (root t) = true /\
  forallb in_use (tl (nodes (root t))) = true /\
  _count_nodes t = Z.of_nat (length (nodes (root t))) /\
  _count_words t = Z.of_nat (length (filter is_end (nodes (root t)))).

(** ** [do_load] of [app.py], and what the further properties speak of *)

(** [do_load], from the list [data] that [load_csv] returned: a new trie,
    then one [insert] for each pair, in order. *)
Definition do_load (data : list (word * Z)) : Trie :=
  fold_left (fun t p => after (insert (fst p) (snd p)) t) data Trie_new.

(** The score of the last pair of [data] that carries [text]. *)
Definition last_score (text : word) (data : list (word * Z)) : option Z :=
  fold_left (fun acc p => if word_eqb (fst p) text then Some (snd p) else acc)
            data None.

(** How many leading symbols of [text] already have their node below
    [node]. *)
Fixpoint matched (text : word) (node : TrieNode) : nat :=
  match text with
  | [] => O
  | ch :: rest =>
      match dict_get ch (children node) with
      | None => O
      | Some nxt => S (matched rest nxt)
      end
  end.

(** Every node that does not end a word has [freq] 0, as [TrieNode()] and
    [remove] leave it. *)
Definition zero_scores (n : TrieNode) : bool :=
  forallb (fun m => is_end m || (freq m =? 0)) (nodes n).


(** The tree that the inserts of [do_load] build from [node]. *)
Definition build (data : list (word * Z)) (node : TrieNode) : TrieNode :=
  fold_left (fun n p => fst (fst (insert_loop (fst p) (snd p) n))) data node.

(** Each entry of a path holds the child, under its symbol, of the node of
    the entry before. *)
Fixpoint linked (path : list (TrieNode * ascii)) : Prop :=
  match path with
  | [] => True
  | (parent, _) :: rest =>
      match rest with
      | [] => True
      | (child, ch) :: _ =>
          dict_get ch (children parent) = Some child /\ linked rest
      end
  end.

(** * Properties *)

(** ** Induction on a node and its children *)

Lemma TrieNode_ind (P : TrieNode -> Prop) :
  (forall cs e f, Forall (fun p => P (snd p)) cs -> P (Node cs e f)) ->
  forall n, P n.
Proof.
  intros H. fix IH 1. intros [cs e f]. apply H.
  induction cs as [|[c n] cs IHcs]; constructor; [apply IH | exact IHcs].
Qed.

(** ** Dicts *)

Section DictFacts.
Variable V : Type.
Implicit Types (d : list (ascii * V)) (ch c : ascii) (v : V).

Lemma dict_get_split ch d v :
  dict_get ch d = Some v ->
  exists l1 l2, d = l1 ++ (ch, v) :: l2 /\ dict_get ch l1 = None /\
                forall v', dict_set ch v' d = l1 ++ (ch, v') :: l2.
Proof.
  induction d as [|[c v0] d IH]; simpl; [discriminate|].
  destruct (Ascii.eqb_spec c ch) as [->|Hne]; intros H.
  - injection H as ->. exists [], d. simpl. auto.
  - destruct (IH H) as (l1 & l2 & -> & Hn & Hs).
    exists ((c, v0) :: l1), l2. simpl.
    destruct (Ascii.eqb_spec c ch); [contradiction|].
    repeat split; auto. intros v'. now rewrite Hs.
Qed.

Lemma dict_get_none ch d :
  dict_get ch d = None <-> ~ In ch (map fst d).
Proof.
  induction d as [|[c v0] d IH]; simpl; [tauto|].
  destruct (Ascii.eqb_spec c ch) as [->|Hne]; split; intros H;
    try discriminate; tauto.
Qed.

Lemma dict_set_new ch v d :
  dict_get ch d = None -> dict_set ch v d = d ++ [(ch, v)].
Proof.
  induction d as [|[c v0] d IH]; simpl; [reflexivity|].
  destruct (Ascii.eqb_spec c ch); [discriminate|].
  intros H. now rewrite IH.
Qed.

Lemma dict_get_In ch d v : dict_get ch d = Some v -> In (ch, v) d.
Proof.
  intros H. destruct (dict_get_split _ _ H) as (l1 & l2 & -> & _).
  apply in_elt.
Qed.

Lemma dict_get_set_same ch v d : dict_get ch (dict_set ch v d) = Some v.
Proof.
  induction d as [|[c v0] d IH]; simpl.
  - now rewrite Ascii.eqb_refl.
  - destruct (Ascii.eqb_spec c ch) as [->|Hne]; simpl.
    + now rewrite Ascii.eqb_refl.
    + destruct (Ascii.eqb_spec c ch); [contradiction|exact IH].
Qed.

Lemma dict_get_set_other ch c v d :
  c <> ch -> dict_get c (dict_set ch v d) = dict_get c d.
Proof.
  intros Hne. induction d as [|[c0 v0] d IH]; simpl.
  - destruct (Ascii.eqb_spec ch c); congruence.
  - destruct (Ascii.eqb_spec c0 ch) as [->|Hne0]; simpl.
    + destruct (Ascii.eqb_spec ch c); congruence.
    + destruct (Ascii.eqb_spec c0 c); congruence.
Qed.

Lemma dict_get_del_same ch d : dict_get ch (dict_del ch d) = None.
Proof.
  unfold dict_del. induction d as [|[c v0] d IH]; simpl; [reflexivity|].
  destruct (Ascii.eqb_spec c ch) as [->|Hne]; simpl; [exact IH|].
  destruct (Ascii.eqb_spec c ch); [contradiction|exact IH].
Qed.

Lemma dict_get_del_other ch c d :
  c <> ch -> dict_get c (dict_del ch d) = dict_get c d.
Proof.
  intros Hne. unfold dict_del.
  induction d as [|[c0 v0] d IH]; simpl; [reflexivity|].
  destruct (Ascii.eqb_spec c0 ch) as [->|Hne0]; simpl.
  - destruct (Ascii.eqb_spec ch c); congruence.
  - destruct (Ascii.eqb_spec c0 c); congruence.
Qed.

Lemma dict_del_absent ch d : ~ In ch (map fst d) -> dict_del ch d = d.
Proof.
  unfold dict_del. induction d as [|[c v0] d IH]; simpl; [reflexivity|].
  intros H. destruct (Ascii.eqb_spec c ch) as [->|Hne]; simpl; [tauto|].
  rewrite IH; tauto.
Qed.

Lemma dict_del_split ch v l1 l2 :
  NoDup (map fst (l1 ++ (ch, v) :: l2)) ->
  dict_del ch (l1 ++ (ch, v) :: l2) = l1 ++ l2.
Proof.
  intros H. rewrite map_app in H. simpl in H.
  pose proof (NoDup_remove_2 _ _ _ H) as Hnot.
  unfold dict_del. rewrite filter_app. simpl. rewrite Ascii.eqb_refl. simpl.
  fold (dict_del ch l1). fold (dict_del ch l2).
  rewrite !dict_del_absent; [reflexivity| |];
    intros Hin; apply Hnot, in_or_app; auto.
Qed.
End DictFacts.

Lemma distinct_NoDup l : distinct l = true <-> NoDup l.
Proof.
  induction l as [|c l IH]; simpl.
  - split; [constructor|reflexivity].
  - rewrite andb_true_iff, negb_true_iff, IH. split.
    + intros [Hn Hd]. constructor; [|exact Hd].
      intros Hin. assert (existsb (Ascii.eqb c) l = true); [|congruence].
      apply existsb_exists. exists c. now rewrite Ascii.eqb_refl.
    + intros H. inversion H as [|? ? Hn Hd]; subst. split; [|exact Hd].
      destruct (existsb (Ascii.eqb c) l) eqn:E; [|reflexivity].
      apply existsb_exists in E as (x & Hin & Hx).
      apply Ascii.eqb_eq in Hx. subst. contradiction.
Qed.

(** ** [_walk] and the recursion on the word *)

Lemma walk_loop_node text : forall node path,
  fst (walk_loop text node path) = walk_node text node.
Proof.
  induction text as [|ch rest IH]; intros node path; simpl; [reflexivity|].
  destruct (dict_get ch (children node)); [apply IH|reflexivity].
Qed.

(** The backward loop over the path that [_walk] built computes
    [remove_at]. *)
Lemma prune_walk text : forall node c0 path0,
  match walk_loop text node (path0 ++ [(node, c0)]) with
  | (None, _) => remove_at text node = None
  | (Some final, path) =>
      if is_end final then
        exists node' running removed,
          remove_at text node = Some (node', running, removed) /\
          fold_left prune_step (rev (removelast path))
            (Node (children final) false 0,
             snd (last path (final, no_char)), true, 0)
          = fold_left prune_step (rev path0) (node', c0, running, removed)
      else remove_at text node = None
  end.
Proof.
  induction text as [|ch rest IH]; intros node c0 path0; simpl.
  - rewrite removelast_last, last_last. simpl.
    destruct (is_end node); [|reflexivity].
    eexists _, _, _. split; reflexivity.
  - destruct (dict_get ch (children node)) as [nxt|]; [|reflexivity].
    specialize (IH nxt ch (path0 ++ [(node, c0)])).
    destruct (walk_loop rest nxt ((path0 ++ [(node, c0)]) ++ [(nxt, ch)]))
      as [[final|] path]; [|now rewrite IH].
    destruct (is_end final); [|now rewrite IH].
    destruct IH as (nxt' & running & removed & -> & ->).
    rewrite rev_unit. simpl.
    destruct (running && negb (in_use nxt'));
      eexists _, _, _; split; reflexivity.
Qed.

Lemma remove_unfold text self :
  remove text self =
  match remove_at text (root self) with
  | None => (false, self)
  | Some (root', _, removed) =>
      (true, {| root := root';
                _count_words := _count_words self - 1;
                _count_nodes := _count_nodes self - removed |})
  end.
Proof.
  unfold remove, bind, get, _walk.
  pose proof (prune_walk text (root self) no_char []) as H. simpl in H.
  destruct (walk_loop text (root self) [(root self, no_char)])
    as [[final|] path]; [|now rewrite H].
  destruct (is_end final); simpl; [|now rewrite H].
  destruct H as (node' & running & removed & -> & ->). reflexivity.
Qed.

Lemma contains_unfold text self :
  contains text self =
  (match walk_node text (root self) with
   | Some node => is_end node
   | None => false
   end, self).
Proof.
  unfold contains, bind, get, _walk. rewrite walk_loop_node.
  destruct (walk_node text (root self)); reflexivity.
Qed.

Lemma insert_unfold text fr self :
  insert text fr self =
  (tt, let '(root', created, fresh) := insert_loop text fr (root self) in
       {| root := root';
          _count_words := _count_words self + (if fresh then 1 else 0);
          _count_nodes := _count_nodes self + created |}).
Proof.
  unfold insert, bind, get, put.
  destruct (insert_loop text fr (root self)) as [[root' created] fresh].
  reflexivity.
Qed.

(** ** What [insert] and [remove] do to the stored words *)

Lemma lookup_cons ch rest node :
  lookup (ch :: rest) node =
  match dict_get ch (children node) with
  | Some nxt => lookup rest nxt
  | None => None
  end.
Proof.
  unfold lookup. simpl. destruct (dict_get ch (children node)); reflexivity.
Qed.

Lemma stored_cons ch rest node :
  stored (ch :: rest) node =
  match dict_get ch (children node) with
  | Some nxt => stored rest nxt
  | None => false
  end.
Proof.
  unfold stored. simpl. destruct (dict_get ch (children node)); reflexivity.
Qed.

Lemma stored_lookup text node :
  stored text node = true <-> lookup text node <> None.
Proof.
  unfold stored, lookup. destruct (walk_node text node) as [final|].
  - destruct (is_end final); split; congruence.
  - split; congruence.
Qed.

Lemma lookup_new text : lookup text TrieNode_new = None.
Proof. destruct text; reflexivity. Qed.

Lemma insert_loop_cons ch rest fr node :
  insert_loop (ch :: rest) fr node =
  let nxt := match dict_get ch (children node) with
             | Some nxt => nxt
             | None => TrieNode_new
             end in
  let made := match dict_get ch (children node) with
              | Some _ => 0
              | None => 1
              end in
  let '(nxt', created, fresh) := insert_loop rest fr nxt in
  (Node (dict_set ch nxt' (children node)) (is_end node) (freq node),
   made + created, fresh).
Proof.
  simpl. destruct (dict_get ch (children node)); reflexivity.
Qed.

Lemma lookup_insert_same text fr : forall node,
  lookup text (fst (fst (insert_loop text fr node))) = Some fr.
Proof.
  induction text as [|ch rest IH]; intros node; [reflexivity|].
  rewrite insert_loop_cons. cbv zeta.
  set (nxt := match dict_get ch (children node) with
              | Some n => n | None => TrieNode_new end).
  specialize (IH nxt).
  destruct (insert_loop rest fr nxt) as [[nxt' created] fresh].
  simpl fst in *. rewrite lookup_cons. simpl children.
  now rewrite dict_get_set_same.
Qed.

Lemma lookup_insert_other text fr : forall text' node,
  text' <> text ->
  lookup text' (fst (fst (insert_loop text fr node))) = lookup text' node.
Proof.
  induction text as [|ch rest IH]; intros text' node Hne.
  - destruct text' as [|c r]; [congruence|]. reflexivity.
  - rewrite insert_loop_cons. cbv zeta.
    set (nxt := match dict_get ch (children node) with
                | Some n => n | None => TrieNode_new end).
    pose proof (fun r => IH r nxt) as IHn.
    destruct (insert_loop rest fr nxt) as [[nxt' created] fresh].
    simpl fst in *. destruct text' as [|c r].
    + destruct node; reflexivity.
    + rewrite !lookup_cons. simpl children.
      destruct (ascii_dec c ch) as [->|Hc].
      * rewrite dict_get_set_same, IHn by congruence.
        subst nxt. destruct (dict_get ch (children node)); [reflexivity|].
        apply lookup_new.
      * now rewrite dict_get_set_other.
Qed.

(** Inserting a stored word creates no node and no word. *)
Lemma insert_loop_stored text fr : forall node,
  stored text node = true ->
  snd (fst (insert_loop text fr node)) = 0 /\
  snd (insert_loop text fr node) = false.
Proof.
  induction text as [|ch rest IH]; intros node H.
  - unfold stored in H. simpl in *. now rewrite H.
  - rewrite stored_cons in H. rewrite insert_loop_cons.
    destruct (dict_get ch (children node)) as [nxt|]; [|discriminate].
    cbv zeta. specialize (IH nxt H).
    destruct (insert_loop rest fr nxt) as [[nxt' created] fresh].
    simpl in *. destruct IH as [-> ->]. auto.
Qed.

Lemma remove_at_stored text : forall node,
  match remove_at text node with
  | Some _ => stored text node = true
  | None => stored text node = false
  end.
Proof.
  induction text as [|ch rest IH]; intros node.
  - unfold stored. simpl. destruct (is_end node); reflexivity.
  - rewrite stored_cons. simpl.
    destruct (dict_get ch (children node)) as [nxt|]; [|reflexivity].
    specialize (IH nxt).
    destruct (remove_at rest nxt) as [[[nxt' running] removed]|]; [|exact IH].
    destruct (running && negb (in_use nxt')); exact IH.
Qed.

Lemma remove_at_removes text : forall node node' running removed,
  remove_at text node = Some (node', running, removed) ->
  stored text node' = false.
Proof.
  induction text as [|ch rest IH]; intros node node' running removed; simpl.
  - destruct (is_end node); [|discriminate].
    intros H. injection H as <- _ _. reflexivity.
  - destruct (dict_get ch (children node)) as [nxt|]; [|discriminate].
    destruct (remove_at rest nxt) as [[[nxt' run] rem]|] eqn:E; [|discriminate].
    apply IH in E.
    destruct (run && negb (in_use nxt')); intros H; injection H as <- _ _;
      rewrite stored_cons; simpl children.
    + now rewrite dict_get_del_same.
    + now rewrite dict_get_set_same.
Qed.

(** ** The nodes of a tree, counted *)

Lemma nodes_Node cs e f : nodes (Node cs e f) = Node cs e f :: below cs.
Proof. reflexivity. Qed.

Lemma below_app l1 l2 : below (l1 ++ l2) = below l1 ++ below l2.
Proof. apply flat_map_app. Qed.

Lemma below_nil : below [] = [].
Proof. reflexivity. Qed.

Lemma below_cons c n l : below ((c, n) :: l) = nodes n ++ below l.
Proof. reflexivity. Qed.

Lemma well_formed_Node cs e f :
  well_formed (Node cs e f) =
  distinct (map fst cs) &&
  forallb (fun m => distinct (map fst (children m))) (below cs).
Proof. reflexivity. Qed.

Lemma well_formed_nodes n :
  well_formed n = forallb (fun m => distinct (map fst (children m))) (nodes n).
Proof. reflexivity. Qed.

Lemma in_use_nodes n :
  forallb in_use (nodes n) = in_use n && forallb in_use (tl (nodes n)).
Proof. destruct n. reflexivity. Qed.

Lemma unused_leaf n :
  in_use n = false -> exists f, n = Node [] false f.
Proof.
  destruct n as [[|p cs] [|] f]; try discriminate. eauto.
Qed.

Ltac split_nodes :=
  repeat first
    [ progress rewrite ?nodes_Node, ?below_app, ?below_cons, ?below_nil,
        ?well_formed_Node,
        ?forallb_app, ?filter_app, ?length_app, ?map_app, ?andb_true_iff
    | progress cbn [tl children is_end freq filter forallb map length
                    fst snd app] ].

Lemma distinct_snoc l c :
  distinct l = true -> ~ In c l -> distinct (l ++ [c]) = true.
Proof.
  rewrite !distinct_NoDup. intros Hl Hc.
  apply NoDup_app; [exact Hl|repeat constructor; simpl; tauto|].
  intros a Ha [<-|[]]. contradiction.
Qed.

Lemma distinct_remove (l1 l2 : list (ascii * TrieNode)) c x :
  distinct (map fst (l1 ++ (c, x) :: l2)) = true ->
  distinct (map fst (l1 ++ l2)) = true.
Proof.
  rewrite !distinct_NoDup, !map_app. simpl. apply NoDup_remove_1.
Qed.

(** What [insert] does from a node: the counts, the nodes in use and the
    dicts. *)
Lemma insert_loop_nodes text fr : forall node,
  let '(node', created, fresh) := insert_loop text fr node in
  Z.of_nat (length (nodes node')) = Z.of_nat (length (nodes node)) + created /\
  Z.of_nat (length (filter is_end (nodes node'))) =
    Z.of_nat (length (filter is_end (nodes node))) + (if fresh then 1 else 0) /\
  (forallb in_use (tl (nodes node)) = true ->
   forallb in_use (nodes node') = true) /\
  (well_formed node = true -> well_formed node' = true).
Proof.
  induction text as [|ch rest IH]; intros [cs e f].
  - cbn [insert_loop]. split_nodes. unfold in_use. cbn [is_end].
    rewrite orb_true_r.
    repeat split; try tauto; destruct e; cbn [length negb]; lia.
  - rewrite insert_loop_cons. cbv zeta. cbn [children].
    destruct (dict_get ch cs) as [nxt|] eqn:G.
    + destruct (dict_get_split _ _ G) as (l1 & l2 & -> & _ & Hset).
      specialize (IH nxt).
      destruct (insert_loop rest fr nxt) as [[nxt' created] fresh].
      rewrite Hset. destruct IH as (Hn & He & Hu & Hw).
      assert (in_use (Node (l1 ++ (ch, nxt') :: l2) e f) = true) as Hin
        by (unfold in_use; cbn [children]; destruct l1; reflexivity).
      rewrite !well_formed_nodes in Hw.
      destruct e; split_nodes;
        rewrite ?Hin, ?(in_use_nodes nxt), ?andb_true_iff; intuition lia.
    + specialize (IH TrieNode_new).
      destruct (insert_loop rest fr TrieNode_new) as [[nxt' created] fresh].
      rewrite dict_set_new by exact G.
      destruct IH as (Hn & He & Hu & Hw).
      apply dict_get_none in G.
      assert (in_use (Node (cs ++ [(ch, nxt')]) e f) = true) as Hin
        by (unfold in_use; cbn [children]; destruct cs; reflexivity).
      cbn [nodes TrieNode_new flat_map filter is_end length tl forallb]
        in Hn, He, Hu.
      specialize (Hu eq_refl). specialize (Hw eq_refl).
      rewrite !well_formed_nodes in Hw.
      pose proof (@distinct_snoc (map fst cs) ch) as Hd.
      destruct e; split_nodes; rewrite ?Hin, ?app_nil_r; intuition lia.
Qed.

(** What a successful [remove] does from a node whose dicts have unique keys
    and below which every node is in use. *)
Lemma remove_at_nodes text : forall node node' running removed,
  remove_at text node = Some (node', running, removed) ->
  well_formed node = true ->
  forallb in_use (tl (nodes node)) = true ->
  Z.of_nat (length (nodes node')) = Z.of_nat (length (nodes node)) - removed /\
  Z.of_nat (length (filter is_end (nodes node'))) =
    Z.of_nat (length (filter is_end (nodes node))) - 1 /\
  forallb in_use (tl (nodes node')) = true /\
  well_formed node' = true /\
  (running = false -> in_use node' = true).
Proof.
  induction text as [|ch rest IH]; intros [cs e f] node' running removed;
    cbn [remove_at children is_end].
  - destruct e; [|discriminate]. intros H. injection H as <- <- <-.
    split_nodes. intuition (try lia; try discriminate).
  - destruct (dict_get ch cs) as [nxt|] eqn:G; [|discriminate].
    destruct (dict_get_split _ _ G) as (l1 & l2 & -> & _ & Hset).
    destruct (remove_at rest nxt) as [[[nxt' run] rem]|] eqn:E; [|discriminate].
    specialize (IH _ _ _ _ E). unfold prune_step. cbn [children is_end freq].
    destruct (run && negb (in_use nxt')) eqn:B;
      intros H; injection H as <- <- <-; intros Hwf Hlive.
    + apply andb_true_iff in B as [-> B]. apply negb_true_iff in B.
      destruct (unused_leaf _ B) as [f' ->].
      rewrite dict_del_split.
      2:{ apply distinct_NoDup. rewrite well_formed_Node in Hwf.
          apply andb_true_iff in Hwf. tauto. }
      pose proof (@distinct_remove l1 l2 ch nxt) as Hd.
      rewrite !map_app in Hd. cbn [map fst] in Hd.
      revert IH Hwf Hlive. rewrite !(well_formed_nodes nxt).
      destruct e; split_nodes; rewrite ?(in_use_nodes nxt), ?andb_true_iff;
        intuition (try lia; try discriminate).
    + assert (in_use nxt' = true) as Hnxt'.
      { destruct run; [now apply negb_false_iff in B|].
        apply IH; try reflexivity.
        - rewrite well_formed_Node in Hwf. revert Hwf. split_nodes.
          rewrite well_formed_nodes. tauto.
        - revert Hlive. split_nodes. rewrite in_use_nodes, andb_true_iff.
          tauto. }
      rewrite Hset.
      assert (in_use (Node (l1 ++ (ch, nxt') :: l2) e f) = true) as Hin
        by (unfold in_use; cbn [children]; destruct l1; reflexivity).
      revert IH Hwf Hlive. rewrite !(well_formed_nodes nxt).
      rewrite (well_formed_nodes nxt').
      destruct e; split_nodes;
        rewrite ?(in_use_nodes nxt), ?(in_use_nodes nxt'), ?Hnxt',
          ?andb_true_iff;
        intuition (try lia).
Qed.

(** ** The invariant of the states reached from [Trie()] *)

Lemma invariant_new : invariant Trie_new.
Proof. repeat split. Qed.

Lemma invariant_insert text fr t :
  invariant t -> invariant (after (insert text fr) t).
Proof.
  unfold after. rewrite insert_unfold. cbn [snd].
  pose proof (insert_loop_nodes text fr (root t)) as H.
  destruct (insert_loop text fr (root t)) as [[root' created] fresh].
  destruct H as (Hn & He & Hu & Hw).
  intros (Iw & Iu & In_ & Ie). unfold invariant. cbn [root _count_nodes _count_words].
  specialize (Hu Iu). rewrite in_use_nodes in Hu.
  apply andb_true_iff in Hu. intuition lia.
Qed.

Lemma invariant_remove text t :
  invariant t -> invariant (after (remove text) t).
Proof.
  unfold after. rewrite remove_unfold. intros I.
  destruct (remove_at text (root t)) as [[[root' running] removed]|] eqn:E;
    [|exact I].
  destruct I as (Iw & Iu & In_ & Ie).
  destruct (remove_at_nodes _ _ E Iw Iu) as (Hn & He & Hu & Hw & _).
  unfold invariant. cbn [snd root _count_nodes _count_words].
  intuition lia.
Qed.

Lemma invariant_run ops : forall t,
  invariant t -> invariant (fold_left run_op ops t).
Proof.
  induction ops as [|[text fr|text] ops IH]; intros t I; cbn [fold_left run_op].
  - exact I.
  - now apply IH, invariant_insert.
  - now apply IH, invariant_remove.
Qed.

Lemma invariant_run_ops ops : invariant (run_ops ops).
Proof. apply invariant_run, invariant_new. Qed.

(** ** [items]: the traversal *)

Lemma fold_dfs sofar cs :
  Forall (fun p => forall sofar collected,
            dfs (snd p) sofar collected = collected ++ dfs (snd p) sofar [])
         cs ->
  forall acc,
    fold_left (fun acc p => dfs (snd p) (sofar ++ [fst p]) acc) cs acc =
    acc ++ dfs_below sofar cs.
Proof.
  induction 1 as [|p cs Hp _ IH]; intros acc; cbn [fold_left dfs_below flat_map].
  - now rewrite app_nil_r.
  - rewrite IH, Hp. unfold dfs_below. now rewrite app_assoc.
Qed.

Lemma dfs_collected node : forall sofar collected,
  dfs node sofar collected = collected ++ dfs node sofar [].
Proof.
  induction node as [cs e f IH] using TrieNode_ind. intros sofar collected. cbn [dfs].
  rewrite !(fold_dfs sofar IH). destruct e; cbn [app]; [|reflexivity].
  now rewrite <- app_assoc.
Qed.

Lemma dfs_Node cs e f sofar :
  dfs (Node cs e f) sofar [] =
  (if e then [(sofar, f)] else []) ++ dfs_below sofar cs.
Proof.
  cbn [dfs]. rewrite fold_dfs.
  - destruct e; reflexivity.
  - apply Forall_forall. intros p _. apply dfs_collected.
Qed.

Lemma dfs_below_app sofar l1 l2 :
  dfs_below sofar (l1 ++ l2) = dfs_below sofar l1 ++ dfs_below sofar l2.
Proof. apply flat_map_app. Qed.

Lemma dfs_below_cons sofar c n l :
  dfs_below sofar ((c, n) :: l) = dfs n (sofar ++ [c]) [] ++ dfs_below sofar l.
Proof. reflexivity. Qed.

(** Every word listed from [node] extends the path to [node]. *)
Lemma dfs_extends node : forall sofar p,
  In p (dfs node sofar []) -> extends sofar (fst p).
Proof.
  induction node as [cs e f IH] using TrieNode_ind. intros sofar p. rewrite dfs_Node.
  rewrite in_app_iff. intros [H|H].
  - destruct e; [|contradiction]. destruct H as [<-|[]].
    exists []. cbn [fst]. now rewrite app_nil_r.
  - unfold dfs_below in H. apply in_flat_map in H as ([c n] & Hin & Hp).
    rewrite Forall_forall in IH. apply (IH _ Hin) in Hp as [suffix ->].
    exists (c :: suffix). cbn [fst]. now rewrite <- app_assoc.
Qed.

Lemma word_eqb_eq a b : word_eqb a b = true <-> a = b.
Proof.
  unfold word_eqb. destruct (list_eq_dec ascii_dec a b); split; congruence.
Qed.

Lemma word_eqb_refl a : word_eqb a a = true.
Proof. now apply word_eqb_eq. Qed.

Lemma filter_nothing A (f : A -> bool) l :
  (forall x, In x l -> f x = false) -> filter f l = [].
Proof.
  induction l as [|x l IH]; intros H; [reflexivity|]. cbn [filter].
  rewrite (H x) by (left; reflexivity). apply IH. intros y Hy. apply H. now right.
Qed.

(** The words below a child start with its symbol. *)
Lemma dfs_other_symbol node sofar c ch rest :
  c <> ch ->
  filter (fun p => word_eqb (fst p) (sofar ++ ch :: rest))
         (dfs node (sofar ++ [c]) []) = [].
Proof.
  intros Hne. apply filter_nothing. intros p Hp.
  apply dfs_extends in Hp as [suffix E].
  destruct (word_eqb (fst p) (sofar ++ ch :: rest)) eqn:B; [|reflexivity].
  apply word_eqb_eq in B. rewrite B, <- app_assoc in E.
  apply app_inv_head in E. cbn [app] in E. congruence.
Qed.

Lemma dfs_below_other sofar ch rest cs :
  ~ In ch (map fst cs) ->
  filter (fun p => word_eqb (fst p) (sofar ++ ch :: rest)) (dfs_below sofar cs)
  = [].
Proof.
  induction cs as [|[c n] cs IH]; intros H; [reflexivity|].
  rewrite dfs_below_cons, filter_app, IH by (cbn [map fst In] in H; tauto).
  rewrite dfs_other_symbol by (cbn [map fst In] in H; tauto). reflexivity.
Qed.

Lemma dfs_below_longer sofar cs :
  filter (fun p => word_eqb (fst p) sofar) (dfs_below sofar cs) = [].
Proof.
  apply filter_nothing. intros p Hp. unfold dfs_below in Hp.
  apply in_flat_map in Hp as ([c n] & _ & Hp).
  apply dfs_extends in Hp as [suffix E]. cbn [fst snd] in E.
  destruct (word_eqb (fst p) sofar) eqn:B; [|reflexivity].
  apply word_eqb_eq in B. rewrite B, <- app_assoc in E.
  rewrite <- (app_nil_r sofar) in E at 1.
  apply app_inv_head in E. discriminate.
Qed.

(** The pairs of [items] that carry a given word: one when the word is
    stored, with its score, none otherwise. *)
Lemma dfs_filter suffix : forall node sofar,
  well_formed node = true ->
  filter (fun p => word_eqb (fst p) (sofar ++ suffix)) (dfs node sofar []) =
  match lookup suffix node with
  | Some s => [(sofar ++ suffix, s)]
  | None => []
  end.
Proof.
  induction suffix as [|ch rest IH]; intros [cs e f] sofar Hwf;
    rewrite dfs_Node, filter_app.
  - rewrite app_nil_r, dfs_below_longer, app_nil_r. unfold lookup.
    cbn [walk_node is_end freq].
    destruct e; cbn [filter fst]; now rewrite ?word_eqb_refl.
  - rewrite lookup_cons. cbn [children].
    match goal with |- ?here ++ _ = _ => assert (here = []) as -> end.
    { destruct e; [|reflexivity]. cbn [filter fst].
      destruct (word_eqb sofar (sofar ++ ch :: rest)) eqn:B; [|reflexivity].
      apply word_eqb_eq in B. rewrite <- (app_nil_r sofar) in B at 1.
      apply app_inv_head in B. discriminate. }
    cbn [app]. rewrite well_formed_Node in Hwf.
    apply andb_true_iff in Hwf as [Hd Hb]. apply distinct_NoDup in Hd.
    destruct (dict_get ch cs) as [nxt|] eqn:G.
    + destruct (dict_get_split _ _ G) as (l1 & l2 & -> & _ & _).
      rewrite map_app in Hd. cbn [map fst] in Hd.
      pose proof (NoDup_remove_2 _ _ _ Hd) as Hnot.
      rewrite in_app_iff in Hnot.
      rewrite dfs_below_app, dfs_below_cons, !filter_app.
      rewrite !dfs_below_other by tauto. cbn [app]. rewrite app_nil_r.
      replace (sofar ++ ch :: rest) with ((sofar ++ [ch]) ++ rest)
        by now rewrite <- app_assoc.
      apply IH. revert Hb. split_nodes. rewrite well_formed_nodes. tauto.
    + apply dfs_below_other. now apply dict_get_none.
Qed.

(** [items] lists one pair for each node that ends a word. *)
Lemma dfs_length node : forall sofar,
  length (dfs node sofar []) = length (filter is_end (nodes node)).
Proof.
  induction node as [cs e f IH] using TrieNode_ind. intros sofar.
  rewrite dfs_Node, nodes_Node, length_app. cbn [filter is_end].
  assert (length (dfs_below sofar cs) = length (filter is_end (below cs))) as ->.
  { induction IH as [|[c n] cs Hp _ IHcs]; [reflexivity|].
    rewrite dfs_below_cons, below_cons, filter_app, !length_app.
    cbn [snd] in Hp. now rewrite Hp, IHcs. }
  destruct e; reflexivity.
Qed.

(** ** [stats]: the height *)

Lemma fold_max_init l : forall x y,
  fold_left Z.max l (Z.max x y) = Z.max x (fold_left Z.max l y).
Proof.
  induction l as [|z l IH]; intros x y; cbn [fold_left]; [reflexivity|].
  now rewrite <- Z.max_assoc, IH.
Qed.

Lemma py_max_cons x y l : py_max (x :: y :: l) = Z.max x (py_max (y :: l)).
Proof. cbn [py_max fold_left]. apply fold_max_init. Qed.

Lemma py_max_head x l : x <= py_max (x :: l).
Proof.
  destruct l as [|y l]; [cbn; lia|]. rewrite py_max_cons. lia.
Qed.

Lemma height_nonneg node : 0 <= height node.
Proof.
  induction node as [cs e f IH] using TrieNode_ind.
  destruct IH as [|[c n] cs Hn _]; [cbn; lia|].
  cbn [height]. cbn [map snd] in *.
  pose proof (py_max_head (height n) (map (fun p => height (snd p)) cs)). lia.
Qed.

Lemma max_length_nonneg l : 0 <= max_length l.
Proof.
  unfold max_length. induction l as [|p l IH]; cbn [map fold_right]; lia.
Qed.

Lemma max_length_app a b :
  max_length (a ++ b) = Z.max (max_length a) (max_length b).
Proof.
  pose proof (max_length_nonneg b) as Hb. unfold max_length in *.
  induction a as [|p a IH]; cbn [app map fold_right]; lia.
Qed.

Lemma dfs_below_max_length sofar cs :
  Forall (fun p => forall sofar,
            forallb in_use (nodes (snd p)) = true ->
            max_length (dfs (snd p) sofar []) =
            Z.of_nat (length sofar) + height (snd p)) cs ->
  forallb in_use (below cs) = true ->
  cs <> [] ->
  max_length (dfs_below sofar cs) =
  Z.of_nat (length sofar) + 1 + py_max (map (fun p => height (snd p)) cs).
Proof.
  induction 1 as [|[c n] cs Hn Hcs IH]; intros Hu Hne; [congruence|].
  clear Hne.
  rewrite below_cons, forallb_app, andb_true_iff in Hu. destruct Hu as [Hu1 Hu2].
  rewrite dfs_below_cons, max_length_app. cbn [snd] in Hn.
  rewrite (Hn _ Hu1), length_app. cbn [length].
  pose proof (height_nonneg n) as Hh.
  destruct cs as [|q cs].
  - cbn. lia.
  - cbn [map snd]. cbn [map] in IH.
    rewrite py_max_cons, (IH Hu2) by congruence. lia.
Qed.

(** Where every node is in use, the longest word listed below [node] is
    [height node] symbols longer than the path to [node]. *)
Lemma dfs_max_length node : forall sofar,
  forallb in_use (nodes node) = true ->
  max_length (dfs node sofar []) = Z.of_nat (length sofar) + height node.
Proof.
  induction node as [cs e f IH] using TrieNode_ind. intros sofar Hu.
  rewrite nodes_Node in Hu. cbn [forallb] in Hu.
  apply andb_true_iff in Hu as [Hroot Hu].
  rewrite dfs_Node, max_length_app.
  destruct cs as [|[c n] cs].
  - unfold in_use in Hroot. cbn in Hroot. subst e. cbn. lia.
  - rewrite (dfs_below_max_length sofar IH Hu) by congruence.
    cbn [height].
    pose proof (py_max_head (height n) (map (fun p => height (snd p)) cs)).
    pose proof (height_nonneg n). cbn [map snd].
    destruct e; unfold max_length; cbn [map fold_right fst]; lia.
Qed.

(** ** [complete]: the traversal *)

Section SortFacts.
Variables (A B : Type) (f : A -> B).
Variables (ltA : A -> A -> bool) (ltB : B -> B -> bool).
Hypothesis lt_f : forall x y, ltB (f x) (f y) = ltA x y.

Lemma insert_sorted_perm x l : Permutation (insert_sorted ltA x l) (x :: l).
Proof.
  induction l as [|y l IH]; cbn [insert_sorted]; [reflexivity|].
  destruct (ltA x y); [reflexivity|].
  rewrite IH. apply perm_swap.
Qed.

Lemma sort_fold_perm l : forall acc,
  Permutation (fold_left (fun acc x => insert_sorted ltA x acc) l acc)
              (l ++ acc).
Proof.
  induction l as [|x l IH]; intros acc; cbn [fold_left app]; [reflexivity|].
  rewrite IH, insert_sorted_perm. symmetry. apply Permutation_middle.
Qed.

Lemma sort_with_perm l : Permutation (sort_with ltA l) l.
Proof. unfold sort_with. rewrite sort_fold_perm. now rewrite app_nil_r. Qed.

Lemma insert_sorted_map x l :
  insert_sorted ltB (f x) (map f l) = map f (insert_sorted ltA x l).
Proof.
  induction l as [|y l IH]; cbn [insert_sorted map]; [reflexivity|].
  rewrite lt_f. destruct (ltA x y); cbn [map]; [reflexivity|].
  now rewrite IH.
Qed.

Lemma sort_fold_map l : forall acc,
  fold_left (fun acc x => insert_sorted ltB x acc) (map f l) (map f acc) =
  map f (fold_left (fun acc x => insert_sorted ltA x acc) l acc).
Proof.
  induction l as [|x l IH]; intros acc; cbn [fold_left map]; [reflexivity|].
  now rewrite insert_sorted_map, IH.
Qed.

Lemma sort_with_map l : sort_with ltB (map f l) = map f (sort_with ltA l).
Proof. apply (sort_fold_map l []). Qed.
End SortFacts.

(** Sorting the children by key moves what is attached to the keys along. *)
Lemma sorted_children_map B C (g : B -> C) (l : list (ascii * B)) :
  sorted_children (map (fun p => (fst p, g (snd p))) l) =
  map (fun p => (fst p, g (snd p))) (sorted_children l).
Proof. unfold sorted_children. now apply sort_with_map. Qed.

Lemma sorted_children_perm B (l : list (ascii * B)) :
  Permutation (sorted_children l) l.
Proof. apply sort_with_perm. Qed.

Lemma fold_left_mapped A B C (g : A -> C -> A) (h : B -> C) l : forall a,
  fold_left g (map h l) a = fold_left (fun a x => g a (h x)) l a.
Proof. induction l as [|x l IH]; intros a; cbn; [reflexivity|apply IH]. Qed.

Lemma explore_Node k cs e f built heap :
  explore k (Node cs e f) built heap =
  fold_left (fun h p => explore k (snd p) (built ++ [fst p]) h)
            (sorted_children cs)
            (if e then offer k heap (f, built) else heap).
Proof.
  cbn [explore]. rewrite (sorted_children_map (explore k)).
  now rewrite fold_left_mapped.
Qed.

Lemma candidates_Node cs e f built :
  candidates (Node cs e f) built =
  (if e then [(f, built)] else []) ++
  flat_map (fun p => candidates (snd p) (built ++ [fst p])) (sorted_children cs).
Proof.
  cbn [candidates]. rewrite (sorted_children_map candidates).
  now rewrite flat_map_concat_map, map_map, <- flat_map_concat_map.
Qed.

(** [explore] offers its candidates to the heap one after the other. *)
Lemma explore_candidates k node : forall built heap,
  explore k node built heap = fold_left (offer k) (candidates node built) heap.
Proof.
  induction node as [cs e f IH] using TrieNode_ind. intros built heap.
  rewrite explore_Node, candidates_Node, fold_left_app.
  assert (Forall (fun p => forall built heap,
            explore k (snd p) built heap =
            fold_left (offer k) (candidates (snd p) built) heap)
          (sorted_children cs)) as IHs.
  { rewrite Forall_forall in *. intros p Hp. apply IH.
    now apply (Permutation_in _ (sorted_children_perm cs)). }
  clear IH.
  match goal with
  | |- _ = fold_left _ _ ?h0 =>
      replace h0 with (if e then offer k heap (f, built) else heap)
        by now destruct e
  end.
  generalize (if e then offer k heap (f, built) else heap).
  induction IHs as [|p l Hp _ IHl]; intros h; cbn [fold_left flat_map];
    [reflexivity|].
  now rewrite fold_left_app, <- Hp, IHl.
Qed.

Lemma filter_perm A (f : A -> bool) l l' :
  Permutation l l' -> Permutation (filter f l) (filter f l').
Proof.
  induction 1 as [|x l l' _ IH|x y l|l l' l'' _ IH1 _ IH2]; cbn [filter].
  - constructor.
  - destruct (f x); [now constructor|exact IH].
  - destruct (f x), (f y); try reflexivity. apply perm_swap.
  - now transitivity (filter f l').
Qed.

(** One candidate for each node that ends a word. *)
Lemma candidates_length node : forall built,
  length (candidates node built) = length (filter is_end (nodes node)).
Proof.
  induction node as [cs e f IH] using TrieNode_ind. intros built.
  rewrite candidates_Node, nodes_Node, length_app. cbn [filter is_end].
  assert (forall l,
    Forall (fun p : ascii * TrieNode => forall built,
              length (candidates (snd p) built) =
              length (filter is_end (nodes (snd p)))) l ->
    length (flat_map (fun p => candidates (snd p) (built ++ [fst p])) l) =
    length (filter is_end (below l))) as Hsum.
  { induction 1 as [|[c n] l Hp _ IHl]; [reflexivity|].
    cbn [flat_map]. rewrite below_cons, filter_app, !length_app.
    cbn [snd fst] in *. now rewrite Hp, IHl. }
  rewrite Hsum.
  - unfold below.
    rewrite (Permutation_length
               (filter_perm is_end
                  (Permutation_flat_map (fun p => nodes (snd p))
                     (sorted_children_perm cs)))).
    destruct e; reflexivity.
  - rewrite Forall_forall in *. intros p Hp. apply IH.
    now apply (Permutation_in _ (sorted_children_perm cs)).
Qed.

Lemma complete_unfold prefix k t :
  complete prefix k t =
  (match walk_node prefix (root t) with
   | None => []
   | Some start =>
       map snd
         (sort_with key_ltb
            (fold_left (offer k) (candidates start prefix) []))
   end, t).
Proof.
  unfold complete, bind, get, _walk. rewrite walk_loop_node.
  destruct (walk_node prefix (root t)); [|reflexivity].
  now rewrite explore_candidates.
Qed.

Lemma offer_nothing k l : k <= 0 -> fold_left (offer k) l [] = [].
Proof.
  intros Hk. induction l as [|x l IH]; [reflexivity|].
  cbn [fold_left]. unfold offer at 2. cbn [length Z.of_nat].
  destruct (Z.ltb_spec 0 k); [lia|exact IH].
Qed.

(** The items below a node that [_walk] reaches are items of the start. *)
Lemma dfs_walk_incl a : forall node mid sofar,
  walk_node a node = Some mid ->
  incl (dfs mid (sofar ++ a) []) (dfs node sofar []).
Proof.
  induction a as [|ch a IH]; intros [cs e f] mid sofar; cbn [walk_node children].
  - intros H. injection H as <-. rewrite app_nil_r. apply incl_refl.
  - destruct (dict_get ch cs) as [nxt|] eqn:G; [|discriminate].
    intros H p Hp.
    replace (sofar ++ ch :: a) with ((sofar ++ [ch]) ++ a) in Hp
      by now rewrite <- app_assoc.
    apply (IH _ _ _ H) in Hp.
    rewrite dfs_Node. apply in_or_app. right.
    unfold dfs_below. apply in_flat_map. exists (ch, nxt).
    split; [now apply dict_get_In|exact Hp].
Qed.

(** Under unique keys, the pairs of [items] are the stored words with their
    scores. *)
Lemma items_lookup t text s :
  well_formed (root t) = true ->
  In (text, s) (returns items t) <-> lookup text (root t) = Some s.
Proof.
  intros Hwf. unfold returns, items, bind, get, ret. cbn [fst].
  pose proof (dfs_filter text (root t) [] Hwf) as H. cbn [app] in H.
  split.
  - intros Hin.
    assert (In (text, s) (filter (fun p => word_eqb (fst p) text)
                                 (dfs (root t) [] []))) as Hf
      by (apply filter_In; split; [exact Hin|apply word_eqb_refl]).
    rewrite H in Hf. destruct (lookup text (root t)); [|contradiction].
    destruct Hf as [E|[]]. congruence.
  - intros E. rewrite E in H.
    assert (In (text, s) (filter (fun p => word_eqb (fst p) text)
                                 (dfs (root t) [] []))) as Hf
      by (rewrite H; now left).
    now apply filter_In in Hf.
Qed.

(** ** The orders of [complete] *)

Section StrictOrder.
Variable A : Type.
Variable ltb : A -> A -> bool.
Hypothesis ltb_irrefl : forall a, ltb a a = false.
Hypothesis ltb_trans :
  forall a b c, ltb a b = true -> ltb b c = true -> ltb a c = true.
Hypothesis ltb_connected :
  forall a b, ltb a b = false -> ltb b a = false -> a = b.

Lemma ltb_not_above a b : ltb a b = true -> not_above ltb a b.
Proof.
  intros H. unfold not_above. destruct (ltb b a) eqn:E; [|reflexivity].
  rewrite <- (ltb_irrefl a). symmetry. exact (ltb_trans H E).
Qed.

Lemma not_above_trans a b c :
  not_above ltb a b -> not_above ltb b c -> not_above ltb a c.
Proof.
  unfold not_above. intros Hba Hcb.
  destruct (ltb c a) eqn:Hca; [|reflexivity].
  destruct (ltb a b) eqn:Hab.
  - rewrite <- Hcb. symmetry. exact (ltb_trans Hca Hab).
  - assert (a = b) as -> by now apply ltb_connected. congruence.
Qed.

Lemma insert_sorted_sorted x l :
  StronglySorted (not_above ltb) l ->
  StronglySorted (not_above ltb) (insert_sorted ltb x l).
Proof.
  induction 1 as [|y l Hl IH Hy]; cbn [insert_sorted].
  - repeat constructor.
  - destruct (ltb x y) eqn:E.
    + constructor; [now constructor|].
      apply ltb_not_above in E. constructor; [exact E|].
      eapply Forall_impl; [|exact Hy]. intros z. now apply not_above_trans.
    + constructor; [exact IH|].
      rewrite Forall_forall in *. intros z Hz.
      apply (Permutation_in _ (insert_sorted_perm ltb x l)) in Hz.
      destruct Hz as [<-|Hz]; [exact E|now apply Hy].
Qed.

Lemma sort_with_sorted l : StronglySorted (not_above ltb) (sort_with ltb l).
Proof.
  unfold sort_with.
  assert (forall acc, StronglySorted (not_above ltb) acc ->
            StronglySorted (not_above ltb)
              (fold_left (fun acc x => insert_sorted ltb x acc) l acc)) as H.
  { induction l as [|x l IH]; intros acc Hacc; cbn [fold_left]; [exact Hacc|].
    now apply IH, insert_sorted_sorted. }
  apply H. constructor.
Qed.
End StrictOrder.

Lemma N_of_ascii_inj x y : N_of_ascii x = N_of_ascii y -> x = y.
Proof.
  intros H. rewrite <- (ascii_N_embedding x), <- (ascii_N_embedding y).
  now rewrite H.
Qed.

Lemma word_ltb_irrefl a : word_ltb a a = false.
Proof.
  induction a as [|x a IH]; [reflexivity|]. cbn [word_ltb].
  now rewrite Ascii.eqb_refl.
Qed.

Lemma word_ltb_trans a : forall b c,
  word_ltb a b = true -> word_ltb b c = true -> word_ltb a c = true.
Proof.
  induction a as [|x a IH]; intros [|y b] [|z c]; cbn [word_ltb];
    try discriminate; try reflexivity.
  destruct (Ascii.eqb_spec x y) as [->|Hxy].
  - destruct (Ascii.eqb_spec y z); [apply IH|tauto].
  - destruct (Ascii.eqb_spec y z) as [->|Hyz].
    + destruct (Ascii.eqb_spec x z); [contradiction|tauto].
    + intros H1 H2. apply N.ltb_lt in H1, H2.
      destruct (Ascii.eqb_spec x z) as [->|Hxz]; [lia|].
      apply N.ltb_lt. lia.
Qed.

Lemma word_ltb_connected a : forall b,
  word_ltb a b = false -> word_ltb b a = false -> a = b.
Proof.
  induction a as [|x a IH]; intros [|y b]; cbn [word_ltb];
    try discriminate; try reflexivity.
  destruct (Ascii.eqb_spec x y) as [->|Hxy].
  - rewrite Ascii.eqb_refl. intros H1 H2. f_equal. now apply IH.
  - destruct (Ascii.eqb_spec y x); [congruence|].
    intros H1 H2. apply N.ltb_ge in H1, H2.
    exfalso. apply Hxy, N_of_ascii_inj. lia.
Qed.

Lemma entry_ltb_irrefl a : entry_ltb a a = false.
Proof.
  unfold entry_ltb. rewrite Z.ltb_irrefl, Z.eqb_refl, word_ltb_irrefl.
  reflexivity.
Qed.

Lemma entry_ltb_trans a b c :
  entry_ltb a b = true -> entry_ltb b c = true -> entry_ltb a c = true.
Proof.
  unfold entry_ltb. rewrite !orb_true_iff, !andb_true_iff.
  rewrite !Z.ltb_lt, !Z.eqb_eq.
  intros [H1|[H1 W1]] [H2|[H2 W2]]; try (left; lia).
  right. split; [lia|]. now apply (word_ltb_trans _ _ _ W1).
Qed.

Lemma entry_ltb_connected a b :
  entry_ltb a b = false -> entry_ltb b a = false -> a = b.
Proof.
  unfold entry_ltb. rewrite !orb_false_iff, !andb_false_iff.
  rewrite !Z.ltb_ge, !Z.eqb_neq.
  destruct a as [fa wa], b as [fb wb]. cbn [fst snd].
  intros [H1 W1] [H2 W2]. assert (fa = fb) as -> by lia.
  f_equal. apply word_ltb_connected; tauto.
Qed.

Lemma key_ltb_irrefl a : key_ltb a a = false.
Proof. apply entry_ltb_irrefl. Qed.

Lemma key_ltb_trans a b c :
  key_ltb a b = true -> key_ltb b c = true -> key_ltb a c = true.
Proof. apply entry_ltb_trans. Qed.

Lemma key_ltb_connected a b :
  key_ltb a b = false -> key_ltb b a = false -> a = b.
Proof.
  intros H1 H2. pose proof (entry_ltb_connected _ _ H1 H2) as E.
  destruct a as [fa wa], b as [fb wb]. unfold sort_key in E. cbn [fst snd] in E.
  injection E as E ->. f_equal. lia.
Qed.

(** ** [complete]: what the heap keeps *)

Lemma heappush_insert_sorted heap item :
  heappush heap item = insert_sorted entry_ltb item heap.
Proof.
  induction heap as [|x heap IH]; cbn [heappush insert_sorted]; [reflexivity|].
  now rewrite IH.
Qed.

Lemma selection_offer k seen heap x :
  0 <= k -> selection k seen heap -> selection k (seen ++ [x]) (offer k heap x).
Proof.
  intros Hk (Hs & Hlen & dropped & Hperm & Hdrop).
  pose proof (@not_above_trans _ entry_ltb entry_ltb_trans
                entry_ltb_connected) as Htrans.
  pose proof (@insert_sorted_sorted _ entry_ltb entry_ltb_irrefl entry_ltb_trans
                entry_ltb_connected) as Hins.
  unfold selection, offer. rewrite length_app. cbn [length].
  destruct (Z.ltb_spec (Z.of_nat (length heap)) k) as [Hlt|Hge].
  - (* the heap is not full: push *)
    rewrite heappush_insert_sorted. split; [now apply Hins|]. split.
    + rewrite (Permutation_length (insert_sorted_perm entry_ltb x heap)).
      cbn [length]. lia.
    + exists dropped. split.
      * rewrite (insert_sorted_perm entry_ltb x heap). cbn [app].
        rewrite (Permutation_app_comm seen [x]). cbn [app].
        now constructor.
      * intros y d Hy Hd.
        apply (Permutation_in _ (insert_sorted_perm entry_ltb x heap)) in Hy.
        destruct Hy as [<-|Hy]; [|now apply Hdrop].
        exfalso. assert (length dropped = 0%nat) as Hnil.
        { apply Permutation_length in Hperm. rewrite length_app in Hperm. lia. }
        apply length_zero_iff_nil in Hnil. subst. contradiction.
  - (* the heap is full: push and pop the smallest *)
    destruct heap as [|m rest]; cbn [heappushpop].
    + cbn [snd]. split; [constructor|]. split; [cbn [length] in *; lia|].
      exists (dropped ++ [x]). split.
      * cbn [app] in *. now apply Permutation_app.
      * contradiction.
    + destruct (entry_ltb m x) eqn:E; cbn [snd].
      * (* the smallest pair held is evicted *)
        rewrite heappush_insert_sorted.
        inversion Hs as [|? ? Hrest Hm]; subst.
        split; [now apply Hins|]. split.
        { rewrite (Permutation_length (insert_sorted_perm entry_ltb x rest)).
          cbn [length] in *. lia. }
        exists (m :: dropped). split.
        { rewrite (insert_sorted_perm entry_ltb x rest).
          rewrite (Permutation_app_comm seen [x]). cbn [app].
          constructor. rewrite <- Hperm. cbn [app].
          symmetry. apply Permutation_middle. }
        intros y d Hy Hd.
        apply (Permutation_in _ (insert_sorted_perm entry_ltb x rest)) in Hy.
        assert (not_above entry_ltb m x) as Hmx
          by exact (@ltb_not_above _ entry_ltb entry_ltb_irrefl entry_ltb_trans
                      _ _ E).
        rewrite Forall_forall in Hm.
        destruct Hd as [<-|Hd].
        { destruct Hy as [<-|Hy]; [exact Hmx|now apply Hm]. }
        destruct Hy as [<-|Hy].
        { apply (Htrans d m x); [|exact Hmx].
          apply Hdrop; [now left|exact Hd]. }
        apply Hdrop; [now right|exact Hd].
      * (* the new pair is not above the smallest: it is dropped *)
        split; [exact Hs|]. split; [cbn [length] in *; lia|].
        exists (x :: dropped). split.
        { rewrite (Permutation_app_comm seen [x]). cbn [app].
          rewrite <- Hperm. symmetry. apply Permutation_middle. }
        intros y d Hy Hd. destruct Hd as [<-|Hd]; [|now apply Hdrop].
        inversion Hs as [|? ? Hrest Hm]; subst. rewrite Forall_forall in Hm.
        destruct Hy as [<-|Hy]; [exact E|].
        apply (Htrans x m y); [exact E|now apply Hm].
Qed.

Lemma selection_fold k l : forall seen heap,
  0 <= k -> selection k seen heap ->
  selection k (seen ++ l) (fold_left (offer k) l heap).
Proof.
  induction l as [|x l IH]; intros seen heap Hk H; cbn [fold_left].
  - now rewrite app_nil_r.
  - replace (seen ++ x :: l) with ((seen ++ [x]) ++ l)
      by now rewrite <- app_assoc.
    apply IH; [exact Hk|]. now apply selection_offer.
Qed.

(** The candidates of [explore] are the items of [dfs], in another order. *)
Lemma flat_map_perm A B (g h : A -> list B) l :
  Forall (fun x => Permutation (g x) (h x)) l ->
  Permutation (flat_map g l) (flat_map h l).
Proof.
  induction 1 as [|x l Hx _ IH]; cbn [flat_map]; [constructor|].
  now apply Permutation_app.
Qed.

Lemma map_over_flat_map A B C (h : B -> C) (g : A -> list B) l :
  map h (flat_map g l) = flat_map (fun x => map h (g x)) l.
Proof.
  induction l as [|x l IH]; cbn [flat_map map]; [reflexivity|].
  now rewrite map_app, IH.
Qed.

Lemma candidates_items node : forall built,
  Permutation (candidates node built)
              (map (fun p => (snd p, fst p)) (dfs node built [])).
Proof.
  induction node as [cs e f IH] using TrieNode_ind. intros built.
  rewrite candidates_Node, dfs_Node, map_app. apply Permutation_app.
  - destruct e; reflexivity.
  - rewrite (Permutation_flat_map _ (sorted_children_perm cs)).
    unfold dfs_below. rewrite map_over_flat_map. apply flat_map_perm.
    eapply Forall_impl; [|exact IH]. intros p Hp. apply Hp.
Qed.

Lemma starts_with_extends prefix : forall word,
  starts_with prefix word = true <-> extends prefix word.
Proof.
  induction prefix as [|x prefix IH]; intros word; cbn [starts_with].
  - split; [intros _; now exists word|reflexivity].
  - destruct word as [|y word].
    + split; [discriminate|]. intros [suffix E]. discriminate.
    + rewrite andb_true_iff, IH. split.
      * intros [Exy [suffix ->]]. apply Ascii.eqb_eq in Exy as ->.
        now exists suffix.
      * intros [suffix E]. injection E as -> ->.
        split; [apply Ascii.eqb_refl|now exists suffix].
Qed.

Lemma filter_everything A (f : A -> bool) l :
  (forall x, In x l -> f x = true) -> filter f l = l.
Proof.
  induction l as [|x l IH]; intros H; [reflexivity|]. cbn [filter].
  rewrite (H x) by now left. f_equal. apply IH. intros y Hy. apply H. now right.
Qed.

Lemma starts_with_app a b word :
  starts_with (a ++ b) (a ++ word) = starts_with b word.
Proof.
  induction a as [|x a IH]; cbn [app starts_with]; [reflexivity|].
  now rewrite Ascii.eqb_refl.
Qed.

Lemma dfs_other_prefix node sofar c ch rest :
  c <> ch ->
  filter (fun p => starts_with (sofar ++ ch :: rest) (fst p))
         (dfs node (sofar ++ [c]) []) = [].
Proof.
  intros Hne. apply filter_nothing. intros p Hp.
  apply dfs_extends in Hp as [suffix ->]. rewrite <- app_assoc.
  rewrite starts_with_app. cbn [app starts_with].
  destruct (Ascii.eqb_spec ch c); [congruence|reflexivity].
Qed.

Lemma dfs_below_other_prefix sofar ch rest cs :
  ~ In ch (map fst cs) ->
  filter (fun p => starts_with (sofar ++ ch :: rest) (fst p))
         (dfs_below sofar cs) = [].
Proof.
  induction cs as [|[c n] cs IH]; intros H; [reflexivity|].
  rewrite dfs_below_cons, filter_app, IH by (cbn [map fst In] in H; tauto).
  rewrite dfs_other_prefix by (cbn [map fst In] in H; tauto). reflexivity.
Qed.

(** Under unique keys, the items that extend a prefix are the items below
    the node [_walk] reaches for it. *)
Lemma dfs_prefix prefix : forall node sofar,
  well_formed node = true ->
  filter (fun p => starts_with (sofar ++ prefix) (fst p)) (dfs node sofar []) =
  match walk_node prefix node with
  | Some start => dfs start (sofar ++ prefix) []
  | None => []
  end.
Proof.
  induction prefix as [|ch rest IH]; intros [cs e f] sofar Hwf.
  - cbn [walk_node]. rewrite app_nil_r. apply filter_everything.
    intros p Hp. apply starts_with_extends. now apply (dfs_extends _ _ _ Hp).
  - cbn [walk_node children]. rewrite dfs_Node, filter_app.
    match goal with |- ?here ++ _ = _ => assert (here = []) as -> end.
    { destruct e; [|reflexivity]. cbn [filter fst].
      rewrite <- (app_nil_r sofar) at 2. now rewrite starts_with_app. }
    cbn [app]. rewrite well_formed_Node in Hwf.
    apply andb_true_iff in Hwf as [Hd Hb]. apply distinct_NoDup in Hd.
    destruct (dict_get ch cs) as [nxt|] eqn:G.
    + destruct (dict_get_split _ _ G) as (l1 & l2 & -> & _ & _).
      rewrite map_app in Hd. cbn [map fst] in Hd.
      pose proof (NoDup_remove_2 _ _ _ Hd) as Hnot.
      rewrite in_app_iff in Hnot.
      rewrite dfs_below_app, dfs_below_cons, !filter_app.
      rewrite !dfs_below_other_prefix by tauto. cbn [app]. rewrite app_nil_r.
      replace (sofar ++ ch :: rest) with ((sofar ++ [ch]) ++ rest)
        by now rewrite <- app_assoc.
      apply IH. revert Hb. split_nodes. rewrite well_formed_nodes. tauto.
    + apply dfs_below_other_prefix. now apply dict_get_none.
Qed.

(** What [complete(prefix, k)] returns for [0 <= k], under unique keys:
    the words of [kept], where [kept] and [dropped] share out the items that
    extend [prefix]; [kept] has [min(k, M)] pairs, in the order of the final
    sort (score descending, then word ascending), and no dropped pair is
    above a kept one in the order of the heap, [(freq, word)] ascending. *)
Lemma complete_selection (t : Trie) (prefix : word) (k : Z) :
  well_formed (root t) = true ->
  0 <= k ->
  let matching :=
    filter (fun p => starts_with prefix (fst p)) (returns items t) in
  exists kept dropped : list entry,
    returns (complete prefix k) t = map snd kept /\
    Permutation (kept ++ dropped) (map (fun p => (snd p, fst p)) matching) /\
    Z.of_nat (length kept) = Z.min k (Z.of_nat (length matching)) /\
    StronglySorted (not_above key_ltb) kept /\
    forall x d, In x kept -> In d dropped -> not_above entry_ltb d x.
Proof.
  intros Hwf Hk. cbv zeta.
  unfold returns. rewrite complete_unfold. cbn [fst].
  unfold items, bind, get, ret. cbn [fst].
  pose proof (dfs_prefix prefix (root t) [] Hwf) as Hmatch. cbn [app] in Hmatch.
  rewrite Hmatch. clear Hmatch.
  destruct (walk_node prefix (root t)) as [start|].
  - assert (selection k [] []) as H0.
    { split; [constructor|]. split; [cbn; lia|].
      exists []. split; [constructor|contradiction]. }
    apply (selection_fold (candidates start prefix) Hk) in H0.
    cbn [app] in H0. destruct H0 as (_ & Hlen & dropped & Hperm & Hdrop).
    set (heap := fold_left (offer k) (candidates start prefix) []) in *.
    pose proof (sort_with_perm key_ltb heap) as Hsort.
    exists (sort_with key_ltb heap), dropped. repeat split.
    + rewrite Hsort, Hperm. apply candidates_items.
    + rewrite (Permutation_length Hsort), Hlen.
      now rewrite (Permutation_length (candidates_items start prefix)),
        length_map.
    + apply sort_with_sorted;
        [exact key_ltb_irrefl|exact key_ltb_trans|exact key_ltb_connected].
    + intros x d Hx Hd. apply Hdrop; [|exact Hd].
      now apply (Permutation_in _ Hsort).
  - exists [], []. repeat split; try constructor; try contradiction.
    cbn. lia.
Qed.

(** * The claims *)

(** C1, at a tie. With ["a"] and ["b"] both stored with score 1,
    [complete("", 1)] returns [["b"]], although [(1, "a")] comes before
    [(1, "b")] in the order of the final sort (score descending, then word
    ascending): the heap is a min-heap on [(freq, word)], so at equal scores
    it evicts the lexicographically smaller word first and the larger word
    stays. The specification has the larger word evicted first, and ["a"]
    returned. *)
Theorem complete_tie_keeps_larger_word :
  returns items tied = [(w "a", 1); (w "b", 1)] /\
  returns (complete (w "") 1) tied = [w "b"] /\
  key_ltb (1, w "a") (1, w "b") = true.
Proof. repeat split. Qed.

(** C2, as the code runs it. After the four inserts, [complete("ca", 2)]
    returns [["cat", "cart"]] where the specification has [["cat", "car"]]:
    with
    ["car"] and ["cart"] tied at 3, the heap evicts ["car"] when ["cat"]
    arrives. The other steps are as specified: [complete("", 1)] is
    [["dog"]], [remove("car")] returns [True], then [complete("ca", 2)] is
    [["cat", "cart"]] and [stats()] is [(3, 4, 9)]. *)
Theorem scenario_run :
  returns (complete (w "ca") 2) scenario = [w "cat"; w "cart"] /\
  returns (complete (w "") 1) scenario = [w "dog"] /\
  returns (remove (w "car")) scenario = true /\
  (let t := after (remove (w "car")) scenario in
   returns (complete (w "ca") 2) t = [w "cat"; w "cart"] /\
   returns stats t = (3, 4, 9)).
Proof. repeat split. Qed.

(** C3. In every state reached from [Trie()] by inserts and removes, no
    node reachable from the root, the root apart, has both an empty
    [children] and [is_end] false; [_count_nodes] is the number of nodes
    reachable from the root, and [_count_words] the number of those that
    end a word. *)
Theorem reachable_counts_and_pruning (ops : list op) :
  let t := run_ops ops in
  Forall (fun n => ~ (children n = [] /\ is_end n = false))
         (tl (nodes (root t))) /\
  _count_nodes t = Z.of_nat (length (nodes (root t))) /\
  _count_words t = Z.of_nat (length (filter is_end (nodes (root t)))).
Proof.
  destruct (invariant_run_ops ops) as (_ & Hu & Hn & He).
  cbv zeta. repeat split; try assumption.
  rewrite forallb_forall in Hu. apply Forall_forall. intros n Hin [Hc He'].
  apply Hu in Hin. unfold in_use in Hin. rewrite Hc, He' in Hin. discriminate.
Qed.

(** C4. [remove(W)] returns what [contains(W)] returned before the call.
    When it returns [False] the state is the one before the call; when it
    returns [True], [contains(W)] is then [False] and a second [remove(W)]
    returns [False]. *)
Theorem remove_iff_contains (t : Trie) (W : word) :
  returns (remove W) t = returns (contains W) t /\
  (if returns (remove W) t
   then returns (contains W) (after (remove W) t) = false /\
        returns (remove W) (after (remove W) t) = false
   else after (remove W) t = t).
Proof.
  assert (forall t, returns (remove W) t = returns (contains W) t) as Hsame.
  { intros t0. unfold returns. rewrite remove_unfold, contains_unfold.
    pose proof (remove_at_stored W (root t0)) as H. unfold stored in H.
    destruct (remove_at W (root t0)) as [[[root' running] removed]|];
      cbn [fst]; now rewrite H. }
  split; [apply Hsame|].
  rewrite (Hsame (after (remove W) t)).
  unfold returns, after. rewrite remove_unfold.
  destruct (remove_at W (root t)) as [[[root' running] removed]|] eqn:E;
    cbn [fst snd]; [|reflexivity].
  rewrite contains_unfold. cbn [fst root].
  apply remove_at_removes in E. unfold stored in E. now rewrite E.
Qed.

(** C5. In every state reached from [Trie()] by inserts and removes, the
    word count of [stats()] is the length of [items()], and its height is
    the length of the longest word of [items()], [0] when there is none. *)
Theorem stats_agree_with_items (ops : list op) :
  let t := run_ops ops in
  fst (fst (returns stats t)) = Z.of_nat (length (returns items t)) /\
  snd (fst (returns stats t)) = max_length (returns items t).
Proof.
  destruct (invariant_run_ops ops) as (_ & Hu & _ & He).
  cbv zeta. unfold returns, stats, items, bind, get, ret. cbn [fst snd].
  split; [now rewrite dfs_length|].
  destruct (in_use (root (run_ops ops))) eqn:Hroot.
  - rewrite dfs_max_length; [cbn [length]; lia|].
    now rewrite in_use_nodes, Hroot, Hu.
  - destruct (unused_leaf _ Hroot) as [f ->]. reflexivity.
Qed.

(** C6. Where [W] is stored, [insert(W, S)] leaves both counters as they
    were, [items()] then lists [W] once, with [S], and lists any other word
    with a score exactly when it did before. *)
Theorem insert_stored_word (t : Trie) (W : word) (S : Z) :
  well_formed (root t) = true ->
  returns (contains W) t = true ->
  let t' := after (insert W S) t in
  _count_words t' = _count_words t /\
  _count_nodes t' = _count_nodes t /\
  filter (fun p => word_eqb (fst p) W) (returns items t') = [(W, S)] /\
  (forall W' s, W' <> W ->
     In (W', s) (returns items t') <-> In (W', s) (returns items t)).
Proof.
  intros Hwf Hc. cbv zeta.
  unfold returns in Hc. rewrite contains_unfold in Hc. cbn [fst] in Hc.
  fold (stored W (root t)) in Hc.
  destruct (insert_loop_stored W S (root t) Hc) as [Hcreated Hfresh].
  pose proof (insert_loop_nodes W S (root t)) as Hnodes.
  pose proof (lookup_insert_same W S (root t)) as Hsame.
  pose proof (fun W' => @lookup_insert_other W S W' (root t)) as Hother.
  assert (after (insert W S) t =
          {| root := fst (fst (insert_loop W S (root t)));
             _count_words := _count_words t;
             _count_nodes := _count_nodes t |}) as ->.
  { unfold after. rewrite insert_unfold. cbn [snd].
    destruct (insert_loop W S (root t)) as [[root' created] fresh].
    cbn [fst snd] in *. subst. f_equal; lia. }
  destruct (insert_loop W S (root t)) as [[root' created] fresh].
  cbn [fst snd] in *. destruct Hnodes as (_ & _ & _ & Hwf').
  specialize (Hwf' Hwf).
  repeat split; try reflexivity.
  - unfold returns, items, bind, get, ret. cbn [fst root].
    pose proof (dfs_filter W root' [] Hwf') as H. cbn [app] in H.
    now rewrite H, Hsame.
  - rewrite !items_lookup by assumption. cbn [root]. now rewrite Hother.
  - rewrite !items_lookup by assumption. cbn [root]. now rewrite Hother.
Qed.

Lemma insert_stored_word_witness :
  well_formed (root scenario) = true /\
  returns (contains (w "car")) scenario = true /\
  (let t' := after (insert (w "car") 7) scenario in
   _count_words t' = _count_words scenario /\
   _count_nodes t' = _count_nodes scenario /\
   filter (fun p => word_eqb (fst p) (w "car")) (returns items t')
   = [(w "car", 7)] /\
   (forall W' s, W' <> w "car" ->
      In (W', s) (returns items t') <-> In (W', s) (returns items scenario))).
Proof.
  split; [reflexivity|]. split; [reflexivity|].
  apply (@insert_stored_word scenario (w "car") 7); reflexivity.
Defined.

(** C7. Right after [insert(W, S)], for any word [W], the empty one too,
    [contains(W)] is [True] and [items()] lists [W] once, with [S]. *)
Theorem insert_then_contains (t : Trie) (W : word) (S : Z) :
  well_formed (root t) = true ->
  let t' := after (insert W S) t in
  returns (contains W) t' = true /\
  filter (fun p => word_eqb (fst p) W) (returns items t') = [(W, S)].
Proof.
  intros Hwf. cbv zeta.
  pose proof (insert_loop_nodes W S (root t)) as Hnodes.
  pose proof (lookup_insert_same W S (root t)) as Hsame.
  unfold after, returns. rewrite insert_unfold. cbn [snd].
  destruct (insert_loop W S (root t)) as [[root' created] fresh].
  cbn [fst] in Hsame. destruct Hnodes as (_ & _ & _ & Hwf').
  specialize (Hwf' Hwf). rewrite contains_unfold. cbn [fst root].
  split.
  - apply stored_lookup. congruence.
  - unfold items, bind, get, ret. cbn [fst root].
    pose proof (dfs_filter W root' [] Hwf') as H. cbn [app] in H.
    now rewrite H, Hsame.
Qed.

Lemma insert_then_contains_witness :
  well_formed (root scenario) = true /\
  (let t' := after (insert (w "") 2) scenario in
   returns (contains (w "")) t' = true /\
   filter (fun p => word_eqb (fst p) (w "")) (returns items t') = [(w "", 2)]).
Proof.
  split; [reflexivity|].
  apply (@insert_then_contains scenario (w "") 2). reflexivity.
Defined.

(** C8. [complete(prefix, k)] returns the empty list and leaves the state
    as it was when [k <= 0], when [_walk] does not reach a node for
    [prefix], and when no word of [items()] extends [prefix]. *)
Theorem complete_nothing (t : Trie) (prefix : word) (k : Z) :
  k <= 0 \/ fst (_walk t prefix) = None \/
  (forall p, In p (returns items t) -> ~ extends prefix (fst p)) ->
  complete prefix k t = ([], t).
Proof.
  intros H. rewrite complete_unfold.
  destruct (walk_node prefix (root t)) as [start|] eqn:Hwalk; [|reflexivity].
  destruct H as [Hk|[Hnone|Hno]].
  - now rewrite offer_nothing.
  - unfold _walk in Hnone. rewrite walk_loop_node in Hnone. congruence.
  - assert (candidates start prefix = []) as ->; [|reflexivity].
    apply length_zero_iff_nil.
    rewrite candidates_length, <- (dfs_length start prefix).
    apply length_zero_iff_nil.
    destruct (dfs start prefix []) as [|p l] eqn:E; [reflexivity|].
    exfalso. apply (Hno p).
    + unfold returns, items, bind, get, ret. cbn [fst].
      apply (dfs_walk_incl prefix (root t) [] Hwalk). cbn [app].
      rewrite E. now left.
    + apply (dfs_extends start prefix). rewrite E. now left.
Qed.

Lemma complete_nothing_witness :
  (0 <= 0 \/ fst (_walk scenario (w "ca")) = None \/
   (forall p, In p (returns items scenario) -> ~ extends (w "ca") (fst p))) /\
  complete (w "ca") 0 scenario = ([], scenario).
Proof.
  split; [left; lia|].
  apply (@complete_nothing scenario (w "ca") 0). left. lia.
Defined.

(** C9. [contains], [complete], [stats] and [items] leave the state, tree
    and counters, as it was before the call. *)
Theorem queries_read_only (t : Trie) (text : word) (k : Z) :
  after (contains text) t = t /\
  after (complete text k) t = t /\
  after stats t = t /\
  after items t = t.
Proof.
  unfold after. rewrite contains_unfold, complete_unfold. repeat split.
Qed.

(** C10. Where the empty word is stored, [remove("")] returns [True] and
    leaves the root with its children, [is_end] false and [freq] 0;
    [_count_words] is one less and [_count_nodes] as before. [items()]
    loses the pair of the empty word and nothing else. *)
Theorem remove_empty_word (t : Trie) :
  returns (contains []) t = true ->
  remove [] t =
    (true, {| root := Node (children (root t)) false 0;
              _count_words := _count_words t - 1;
              _count_nodes := _count_nodes t |}) /\
  returns items t = ([], freq (root t)) :: returns items (after (remove []) t).
Proof.
  unfold returns, after. rewrite contains_unfold, remove_unfold.
  unfold items, bind, get, ret.
  destruct t as [[cs e f] cw cn].
  cbn [fst snd walk_node remove_at root is_end children freq
       _count_words _count_nodes].
  intros ->. cbn [fst snd root]. rewrite Z.sub_0_r, !dfs_Node.
  split; reflexivity.
Qed.

Lemma remove_empty_word_witness :
  let t := after (insert (w "") 2) scenario in
  returns (contains []) t = true /\
  remove [] t =
    (true, {| root := Node (children (root t)) false 0;
              _count_words := _count_words t - 1;
              _count_nodes := _count_nodes t |}) /\
  returns items t = ([], freq (root t)) :: returns items (after (remove []) t).
Proof.
  split; [reflexivity|].
  apply (@remove_empty_word (after (insert (w "") 2) scenario)). reflexivity.
Defined.


(** * Further properties of the code *)

(** ** Dicts and the nodes below them *)

Section BelowFacts.
Variable P : TrieNode -> bool.

Lemma forallb_below_get ch cs nxt :
  forallb P (below cs) = true -> dict_get ch cs = Some nxt ->
  forallb P (nodes nxt) = true.
Proof.
  intros H G. destruct (dict_get_split _ _ G) as (l1 & l2 & -> & _).
  revert H. split_nodes. tauto.
Qed.

Lemma forallb_below_set ch v cs :
  forallb P (below cs) = true -> forallb P (nodes v) = true ->
  forallb P (below (dict_set ch v cs)) = true.
Proof.
  intros H Hv. induction cs as [|[c n] cs IH]; cbn [dict_set].
  - split_nodes. tauto.
  - revert H. destruct (Ascii.eqb c ch); split_nodes; tauto.
Qed.

Lemma forallb_below_del ch cs :
  forallb P (below cs) = true -> forallb P (below (dict_del ch cs)) = true.
Proof.
  unfold dict_del. induction cs as [|[c n] cs IH]; cbn [filter fst];
    [reflexivity|].
  destruct (negb (Ascii.eqb c ch)); split_nodes; tauto.
Qed.

Lemma forallb_walk text : forall n m,
  forallb P (nodes n) = true -> walk_node text n = Some m ->
  forallb P (nodes m) = true.
Proof.
  induction text as [|ch rest IH]; intros [cs e f] m H; cbn [walk_node children].
  - intros E. now injection E as <-.
  - destruct (dict_get ch cs) as [nxt|] eqn:G; [|discriminate].
    apply IH. apply (forallb_below_get ch cs); [|exact G].
    revert H. split_nodes. tauto.
Qed.
End BelowFacts.

Lemma dict_set_set V ch (v v' : V) d :
  dict_set ch v (dict_set ch v' d) = dict_set ch v d.
Proof.
  induction d as [|[c v0] d IH]; cbn [dict_set].
  - now rewrite Ascii.eqb_refl.
  - destruct (Ascii.eqb c ch) eqn:E; cbn [dict_set]; rewrite E;
      [reflexivity|now rewrite IH].
Qed.

Lemma dict_set_get V ch (v : V) d :
  dict_get ch d = Some v -> dict_set ch v d = d.
Proof.
  induction d as [|[c v0] d IH]; cbn [dict_get dict_set]; [discriminate|].
  destruct (Ascii.eqb c ch); intros H; [now injection H as ->|].
  now rewrite IH.
Qed.

Lemma dict_del_new V ch (v : V) d :
  dict_get ch d = None -> dict_del ch (d ++ [(ch, v)]) = d.
Proof.
  intros H. apply dict_get_none in H. unfold dict_del.
  rewrite filter_app. cbn [filter fst]. rewrite Ascii.eqb_refl. cbn [negb].
  rewrite app_nil_r. now apply dict_del_absent.
Qed.

Lemma dict_get_new V ch (v : V) d :
  dict_get ch d = None -> dict_get ch (d ++ [(ch, v)]) = Some v.
Proof.
  intros H. rewrite <- (dict_set_new _ v _ H). apply dict_get_set_same.
Qed.

(** ** [items] and [contains] *)

Lemma distinct_by_filter (l : list (word * Z)) :
  (forall text,
     (length (filter (fun p => word_eqb (fst p) text) l) <= 1)%nat) ->
  NoDup (map fst l).
Proof.
  induction l as [|p l IH]; intros H; cbn [map]; constructor.
  - intros Hin. apply in_map_iff in Hin as (q & Eq & Hq).
    specialize (H (fst p)). cbn [filter] in H.
    rewrite word_eqb_refl in H. cbn [length] in H.
    assert (In q (filter (fun p0 => word_eqb (fst p0) (fst p)) l)) as Hf
      by (apply filter_In; split; [exact Hq|now apply word_eqb_eq]).
    destruct (filter (fun p0 => word_eqb (fst p0) (fst p)) l);
      [contradiction|cbn [length] in H; lia].
  - apply IH. intros text. specialize (H text). cbn [filter] in H.
    destruct (word_eqb (fst p) text); cbn [length] in H; lia.
Qed.

Lemma dfs_words_distinct node sofar :
  well_formed node = true -> NoDup (map fst (dfs node sofar [])).
Proof.
  intros Hwf. apply distinct_by_filter. intros text.
  destruct (starts_with sofar text) eqn:E.
  - apply starts_with_extends in E as [suffix ->].
    rewrite (dfs_filter suffix node sofar Hwf).
    destruct (lookup suffix node); cbn [length]; lia.
  - rewrite filter_nothing; [cbn [length]; lia|].
    intros p Hp. apply dfs_extends in Hp.
    apply starts_with_extends in Hp.
    destruct (word_eqb (fst p) text) eqn:B; [|reflexivity].
    apply word_eqb_eq in B. congruence.
Qed.

(** X1. Under unique keys, [items()] lists no word twice. *)
Theorem items_words_distinct (t : Trie) :
  well_formed (root t) = true -> NoDup (map fst (returns items t)).
Proof. intros Hwf. now apply dfs_words_distinct. Qed.

Lemma items_words_distinct_witness :
  well_formed (root scenario) = true /\
  NoDup (map fst (returns items scenario)).
Proof.
  split; [reflexivity|]. apply (@items_words_distinct scenario). reflexivity.
Defined.

(** X2. Under unique keys, [contains(W)] is [True] exactly when [items()]
    lists [W] with some score. *)
Theorem contains_iff_listed (t : Trie) (W : word) :
  well_formed (root t) = true ->
  returns (contains W) t = true <-> exists s, In (W, s) (returns items t).
Proof.
  intros Hwf. unfold returns at 1. rewrite contains_unfold. cbn [fst].
  fold (stored W (root t)). rewrite stored_lookup. split.
  - destruct (lookup W (root t)) as [s|] eqn:E; [|congruence].
    intros _. exists s. now apply items_lookup.
  - intros [s Hs]. apply items_lookup in Hs; [congruence|exact Hwf].
Qed.

Lemma contains_iff_listed_witness :
  well_formed (root scenario) = true /\
  (returns (contains (w "cart")) scenario = true <->
   exists s, In (w "cart", s) (returns items scenario)).
Proof.
  split; [reflexivity|].
  apply (@contains_iff_listed scenario (w "cart")). reflexivity.
Defined.

(** ** [insert]: what it creates and what it leaves *)

Lemma matched_new text : matched text TrieNode_new = O.
Proof. destruct text; reflexivity. Qed.

Lemma insert_loop_created text fr : forall node,
  snd (fst (insert_loop text fr node)) =
  Z.of_nat (length text - matched text node).
Proof.
  induction text as [|ch rest IH]; intros node; [reflexivity|].
  rewrite insert_loop_cons. cbv zeta. cbn [matched length].
  destruct (dict_get ch (children node)) as [nxt|].
  - specialize (IH nxt).
    destruct (insert_loop rest fr nxt) as [[nxt' created] fresh].
    cbn [fst snd] in *. rewrite IH. lia.
  - specialize (IH TrieNode_new). rewrite matched_new in IH.
    destruct (insert_loop rest fr TrieNode_new) as [[nxt' created] fresh].
    cbn [fst snd] in *. rewrite IH. lia.
Qed.

Lemma stored_new text : stored text TrieNode_new = false.
Proof. destruct text; reflexivity. Qed.

Lemma insert_loop_fresh text fr : forall node,
  snd (insert_loop text fr node) = negb (stored text node).
Proof.
  induction text as [|ch rest IH]; intros node; [reflexivity|].
  rewrite insert_loop_cons, stored_cons. cbv zeta.
  destruct (dict_get ch (children node)) as [nxt|].
  - specialize (IH nxt).
    destruct (insert_loop rest fr nxt) as [[nxt' created] fresh]. exact IH.
  - specialize (IH TrieNode_new). rewrite stored_new in IH.
    destruct (insert_loop rest fr TrieNode_new) as [[nxt' created] fresh].
    exact IH.
Qed.

Lemma after_insert text fr t :
  after (insert text fr) t =
  {| root := fst (fst (insert_loop text fr (root t)));
     _count_words := _count_words t +
                     (if stored text (root t) then 0 else 1);
     _count_nodes := _count_nodes t +
                     Z.of_nat (length text - matched text (root t)) |}.
Proof.
  unfold after. rewrite insert_unfold. cbn [snd].
  pose proof (insert_loop_created text fr (root t)) as Hc.
  pose proof (insert_loop_fresh text fr (root t)) as Hf.
  destruct (insert_loop text fr (root t)) as [[root' created] fresh].
  cbn [fst snd] in *. subst. now destruct (stored text (root t)).
Qed.

(** X3. [insert(W, S)] stores [S] for [W] and changes the score of no other
    word; it adds one to [_count_words] when [W] was not stored, and adds
    to [_count_nodes] one node for each symbol of [W] past the part of its
    path that existed. *)
Theorem insert_effect (t : Trie) (W : word) (S : Z) :
  let t' := after (insert W S) t in
  lookup W (root t') = Some S /\
  (forall W', W' <> W -> lookup W' (root t') = lookup W' (root t)) /\
  _count_words t' =
    _count_words t + (if returns (contains W) t then 0 else 1) /\
  _count_nodes t' =
    _count_nodes t + Z.of_nat (length W - matched W (root t)).
Proof.
  cbv zeta. rewrite after_insert. cbn [root _count_words _count_nodes].
  unfold returns. rewrite contains_unfold. cbn [fst].
  fold (stored W (root t)). repeat split.
  - apply lookup_insert_same.
  - intros W' Hne. now apply lookup_insert_other.
Qed.

Lemma insert_loop_twice text fr1 fr2 : forall node,
  fst (fst (insert_loop text fr2 (fst (fst (insert_loop text fr1 node))))) =
  fst (fst (insert_loop text fr2 node)).
Proof.
  induction text as [|ch rest IH]; intros node; [reflexivity|].
  rewrite (insert_loop_cons ch rest fr1 node). cbv zeta.
  rewrite (insert_loop_cons ch rest fr2 node). cbv zeta.
  set (nxt := match dict_get ch (children node) with
              | Some n => n | None => TrieNode_new end).
  specialize (IH nxt).
  destruct (insert_loop rest fr1 nxt) as [[nxt1 c1] f1].
  cbn [fst] in *. rewrite insert_loop_cons. cbv zeta. cbn [children].
  rewrite dict_get_set_same.
  destruct (insert_loop rest fr2 nxt1) as [[nxt2 c2] f2].
  destruct (insert_loop rest fr2 nxt) as [[nxt2' c2'] f2'].
  cbn [fst is_end freq] in *. subst. now rewrite dict_set_set.
Qed.

Lemma stored_insert_same text fr node :
  stored text (fst (fst (insert_loop text fr node))) = true.
Proof.
  apply stored_lookup. rewrite lookup_insert_same. discriminate.
Qed.

Lemma matched_stored text : forall node,
  stored text node = true -> matched text node = length text.
Proof.
  induction text as [|ch rest IH]; intros node; [reflexivity|].
  rewrite stored_cons. cbn [matched length].
  destruct (dict_get ch (children node)); [|discriminate].
  intros H. now rewrite IH.
Qed.

(** X4. A second [insert] of the same word overwrites the first: the state
    after [insert(W, S1); insert(W, S2)] is the state after [insert(W, S2)]
    alone, tree and counters. *)
Theorem insert_overwrites (t : Trie) (W : word) (S1 S2 : Z) :
  after (insert W S2) (after (insert W S1) t) = after (insert W S2) t.
Proof.
  rewrite (after_insert W S2 (after (insert W S1) t)).
  rewrite (after_insert W S1 t), (after_insert W S2 t).
  cbn [root _count_words _count_nodes].
  rewrite insert_loop_twice, stored_insert_same.
  rewrite (matched_stored _ _ (stored_insert_same W S1 (root t))).
  f_equal; lia.
Qed.

(** ** [remove]: what it leaves *)

Lemma lookup_unused n text : in_use n = false -> lookup text n = None.
Proof.
  intros H. destruct (unused_leaf _ H) as [f ->]. destruct text; reflexivity.
Qed.

Lemma lookup_remove_other text : forall text' node node' running removed,
  remove_at text node = Some (node', running, removed) ->
  text' <> text ->
  lookup text' node' = lookup text' node.
Proof.
  induction text as [|ch rest IH]; intros text' [cs e f] node' running removed;
    cbn [remove_at children is_end].
  - destruct e; [|discriminate]. intros H Hne. injection H as <- _ _.
    destruct text' as [|c r]; [congruence|reflexivity].
  - destruct (dict_get ch cs) as [nxt|] eqn:G; [|discriminate].
    destruct (remove_at rest nxt) as [[[nxt' run] rem]|] eqn:E; [|discriminate].
    pose proof (fun r => @IH r _ _ _ _ E) as IHn.
    unfold prune_step. cbn [children is_end freq].
    destruct (run && negb (in_use nxt')) eqn:B;
      intros H Hne; injection H as <- _ _;
      (destruct text' as [|c r]; [reflexivity|]);
      rewrite !lookup_cons; cbn [children];
      (destruct (ascii_dec c ch) as [->|Hc];
       [|now rewrite ?dict_get_del_other, ?dict_get_set_other by exact Hc]).
    + rewrite dict_get_del_same, G.
      apply andb_true_iff in B as [_ B]. apply negb_true_iff in B.
      rewrite <- IHn by congruence. symmetry. now apply lookup_unused.
    + rewrite dict_get_set_same, G. apply IHn. congruence.
Qed.

(** X5. [remove(W)] changes the score of no other word, whether it returns
    [True] or [False], and takes one from [_count_words] exactly when [W]
    was stored. *)
Theorem remove_effect (t : Trie) (W W' : word) :
  W' <> W ->
  let t' := after (remove W) t in
  lookup W' (root t') = lookup W' (root t) /\
  _count_words t' =
    _count_words t - (if returns (contains W) t then 1 else 0).
Proof.
  intros Hne. cbv zeta. unfold after, returns.
  rewrite remove_unfold, contains_unfold. cbn [fst].
  pose proof (remove_at_stored W (root t)) as Hs. unfold stored in Hs.
  destruct (remove_at W (root t)) as [[[root' running] removed]|] eqn:E;
    cbn [snd root _count_words]; rewrite Hs.
  - split; [|reflexivity]. eapply lookup_remove_other; eassumption.
  - split; [reflexivity|lia].
Qed.

Lemma remove_effect_witness :
  w "cart" <> w "car" /\
  (let t' := after (remove (w "car")) scenario in
   lookup (w "cart") (root t') = lookup (w "cart") (root scenario) /\
   _count_words t' =
     _count_words scenario -
     (if returns (contains (w "car")) scenario then 1 else 0)).
Proof.
  assert (w "cart" <> w "car") as Hne by discriminate.
  split; [exact Hne|].
  exact (@remove_effect scenario (w "car") (w "cart") Hne).
Defined.

(** ** Scores of the nodes that end no word *)

Lemma zero_scores_Node cs e f :
  zero_scores (Node cs e f) =
  (e || (f =? 0)) && forallb (fun m => is_end m || (freq m =? 0)) (below cs).
Proof. reflexivity. Qed.

Lemma insert_loop_zero_scores text fr : forall node,
  zero_scores node = true ->
  zero_scores (fst (fst (insert_loop text fr node))) = true.
Proof.
  induction text as [|ch rest IH]; intros [cs e f];
    rewrite zero_scores_Node, andb_true_iff; intros [He Hb].
  - cbn [insert_loop fst children]. rewrite zero_scores_Node. now rewrite Hb.
  - rewrite insert_loop_cons. cbv zeta. cbn [children is_end freq].
    set (nxt := match dict_get ch cs with
                | Some n => n | None => TrieNode_new end).
    specialize (IH nxt).
    destruct (insert_loop rest fr nxt) as [[nxt' created] fresh].
    cbn [fst] in *. rewrite zero_scores_Node, He. cbn [andb].
    apply forallb_below_set; [exact Hb|]. apply IH. subst nxt.
    destruct (dict_get ch cs) as [n|] eqn:G; [|reflexivity].
    now apply (forallb_below_get _ ch cs).
Qed.

Lemma remove_at_zero_scores text : forall node node' running removed,
  remove_at text node = Some (node', running, removed) ->
  zero_scores node = true -> zero_scores node' = true.
Proof.
  induction text as [|ch rest IH]; intros [cs e f] node' running removed;
    cbn [remove_at children is_end].
  - destruct e; [|discriminate]. intros H. injection H as <- _ _.
    rewrite !zero_scores_Node, !andb_true_iff. tauto.
  - destruct (dict_get ch cs) as [nxt|] eqn:G; [|discriminate].
    destruct (remove_at rest nxt) as [[[nxt' run] rem]|] eqn:E; [|discriminate].
    unfold prune_step. cbn [children is_end freq].
    destruct (run && negb (in_use nxt'));
      intros H; injection H as <- _ _;
      rewrite !zero_scores_Node, !andb_true_iff; intros [He Hb];
      (split; [exact He|]).
    + now apply forallb_below_del.
    + apply forallb_below_set; [exact Hb|].
      apply (IH _ _ _ _ E). now apply (forallb_below_get _ ch cs).
Qed.

Lemma zero_scores_run ops : forall t,
  zero_scores (root t) = true ->
  zero_scores (root (fold_left run_op ops t)) = true.
Proof.
  induction ops as [|[text fr|text] ops IH]; intros t H; cbn [fold_left run_op].
  - exact H.
  - apply IH. rewrite after_insert. cbn [root].
    now apply insert_loop_zero_scores.
  - apply IH. unfold after. rewrite remove_unfold.
    destruct (remove_at text (root t)) as [[[root' running] removed]|] eqn:E;
      [|exact H].
    cbn [snd root]. now apply (remove_at_zero_scores _ _ E).
Qed.

Lemma zero_scores_run_ops ops : zero_scores (root (run_ops ops)) = true.
Proof. now apply zero_scores_run. Qed.

(** ** [insert] then [remove] *)

Lemma in_use_children n :
  children n <> [] -> in_use n = true.
Proof.
  destruct n as [[|p cs] e f]; cbn [children]; [congruence|reflexivity].
Qed.

(** Below a node, removing a word right after inserting it, where it was
    not stored, gives the node back and deletes the nodes just created. *)
Lemma remove_insert_loop text fr : forall node,
  forallb in_use (tl (nodes node)) = true ->
  zero_scores node = true ->
  stored text node = false ->
  exists running,
    remove_at text (fst (fst (insert_loop text fr node))) =
      Some (node, running, snd (fst (insert_loop text fr node))) /\
    (in_use node = false -> running = true).
Proof.
  induction text as [|ch rest IH]; intros [cs e f] Hu Hz Hs.
  - unfold stored in Hs. cbn [walk_node is_end] in Hs. subst e.
    rewrite zero_scores_Node in Hz. cbn [orb] in Hz.
    apply andb_true_iff in Hz as [Hf _]. apply Z.eqb_eq in Hf. subst f.
    exists true. split; reflexivity.
  - rewrite stored_cons in Hs. cbn [children] in Hs.
    rewrite insert_loop_cons. cbv zeta. cbn [children is_end freq].
    rewrite nodes_Node in Hu. cbn [tl] in Hu.
    rewrite zero_scores_Node in Hz. apply andb_true_iff in Hz as [He Hz].
    destruct (dict_get ch cs) as [nxt|] eqn:G.
    + pose proof (forallb_below_get _ ch cs Hu G) as Hunxt.
      rewrite in_use_nodes in Hunxt. apply andb_true_iff in Hunxt as [Hin Hunxt].
      destruct (IH nxt Hunxt (forallb_below_get _ ch cs Hz G) Hs)
        as (running & Hrem & _).
      destruct (insert_loop rest fr nxt) as [[nxt' created] fresh].
      cbn [fst snd] in *. exists false. split.
      * cbn [remove_at children]. rewrite dict_get_set_same, Hrem.
        unfold prune_step. cbn [children is_end freq].
        rewrite Hin, andb_false_r, dict_set_set, (@dict_set_get _ ch nxt cs G).
        reflexivity.
      * intros Hdead. exfalso.
        rewrite in_use_children in Hdead; [discriminate|].
        cbn [children]. intros ->. discriminate.
    + destruct (IH TrieNode_new eq_refl eq_refl (stored_new rest))
        as (running & Hrem & Hrun).
      specialize (Hrun eq_refl). subst running.
      destruct (insert_loop rest fr TrieNode_new) as [[nxt' created] fresh].
      cbn [fst snd] in *. exists true. split; [|reflexivity].
      cbn [remove_at children]. rewrite (@dict_set_new _ ch nxt' cs G).
      rewrite (@dict_get_new _ ch nxt' cs G), Hrem.
      unfold prune_step. cbn [children is_end freq andb negb in_use orb].
      rewrite (@dict_del_new _ ch nxt' cs G).
      change (in_use TrieNode_new) with false. cbn [negb].
      f_equal. f_equal. lia.
Qed.

(** X6. In a state reached from [Trie()], where [W] is not stored,
    [insert(W, S)] followed by [remove(W)] returns [True] and gives the
    state back: the same tree, with its children in the same order, and
    the same counters. *)
Theorem insert_then_remove (ops : list op) (W : word) (S : Z) :
  returns (contains W) (run_ops ops) = false ->
  remove W (after (insert W S) (run_ops ops)) = (true, run_ops ops).
Proof.
  set (t := run_ops ops).
  unfold returns. rewrite contains_unfold. cbn [fst].
  fold (stored W (root t)). intros Hs.
  destruct (invariant_run_ops ops) as (_ & Hu & _ & _). fold t in Hu.
  pose proof (zero_scores_run_ops ops) as Hz. fold t in Hz.
  destruct (remove_insert_loop W S (root t) Hu Hz Hs) as (running & Hrem & _).
  rewrite remove_unfold, after_insert. cbn [root _count_words _count_nodes].
  rewrite Hrem, Hs, insert_loop_created.
  destruct t as [r cw cn]. cbn [root _count_words _count_nodes]. f_equal.
  f_equal; lia.
Qed.

Lemma insert_then_remove_witness :
  returns (contains (w "cab"))
          (run_ops [Insert (w "cat") 5; Insert (w "car") 3]) = false /\
  remove (w "cab")
         (after (insert (w "cab") 4)
                (run_ops [Insert (w "cat") 5; Insert (w "car") 3])) =
  (true, run_ops [Insert (w "cat") 5; Insert (w "car") 3]).
Proof.
  split; [reflexivity|].
  apply (@insert_then_remove [Insert (w "cat") 5; Insert (w "car") 3]
           (w "cab") 4).
  reflexivity.
Defined.

(** ** The paths of a reachable state *)

Lemma walk_node_app a : forall b node,
  walk_node (a ++ b) node =
  match walk_node a node with
  | Some mid => walk_node b mid
  | None => None
  end.
Proof.
  induction a as [|ch a IH]; intros b node; cbn [app walk_node];
    [reflexivity|].
  destruct (dict_get ch (children node)); [apply IH|reflexivity].
Qed.

(** Where every node is in use, some word ends at or below the node. *)
Lemma in_use_has_item n : forall sofar,
  forallb in_use (nodes n) = true -> dfs n sofar [] <> [].
Proof.
  induction n as [cs e f IH] using TrieNode_ind. intros sofar Hu.
  rewrite nodes_Node in Hu. cbn [forallb] in Hu.
  apply andb_true_iff in Hu as [Hroot Hu]. rewrite dfs_Node.
  destruct e; [discriminate|].
  destruct cs as [|[c m] cs]; [discriminate|].
  inversion IH as [|? ? Hm _]; subst. cbn [snd] in Hm.
  rewrite below_cons, forallb_app, andb_true_iff in Hu.
  rewrite dfs_below_cons. cbn [app]. intros E.
  apply app_eq_nil in E as [E _]. now apply (Hm (sofar ++ [c])).
Qed.

(** X7. In a state reached from [Trie()], [_walk] reaches a node for
    [prefix] exactly when [prefix] is empty or some word of [items()]
    extends it: no path of the tree leads nowhere. *)
Theorem walk_reaches_iff_prefix (ops : list op) (prefix : word) :
  let t := run_ops ops in
  fst (_walk t prefix) <> None <->
  prefix = [] \/
  exists W s, In (W, s) (returns items t) /\ extends prefix W.
Proof.
  cbv zeta. set (t := run_ops ops).
  destruct (invariant_run_ops ops) as (Hwf & Hu & _ & _). fold t in Hwf, Hu.
  unfold _walk. rewrite walk_loop_node. split.
  - destruct prefix as [|ch rest]; [now left|]. right.
    destruct (walk_node (ch :: rest) (root t)) as [m|] eqn:E; [|congruence].
    assert (forallb in_use (nodes m) = true) as Hm.
    { cbn [walk_node] in E.
      destruct (dict_get ch (children (root t))) as [nxt|] eqn:G;
        [|discriminate].
      apply (forallb_walk _ rest nxt); [|exact E].
      apply (forallb_below_get _ ch (children (root t))); [|exact G].
      destruct (root t). exact Hu. }
    destruct (dfs m (ch :: rest) []) as [|[W s] l] eqn:D.
    + now apply in_use_has_item in D.
    + exists W, s. split.
      * unfold returns, items, bind, get, ret. cbn [fst].
        apply (dfs_walk_incl (ch :: rest) (root t) [] E). cbn [app].
        rewrite D. now left.
      * apply (dfs_extends m (ch :: rest) (W, s)). rewrite D. now left.
  - intros [->|(W & s & Hin & suffix & ->)]; [discriminate|].
    apply (items_lookup t _ s Hwf) in Hin. unfold lookup in Hin.
    rewrite walk_node_app in Hin.
    destruct (walk_node prefix (root t)); [discriminate|discriminate].
Qed.

(** X8. A state reached from [Trie()] that stores no word is [Trie()]
    again: a root without children and one node counted. *)
Theorem no_word_is_new (ops : list op) :
  _count_words (run_ops ops) = 0 -> run_ops ops = Trie_new.
Proof.
  set (t := run_ops ops).
  destruct (invariant_run_ops ops) as (_ & Hu & Hn & He). fold t in Hu, Hn, He.
  pose proof (zero_scores_run_ops ops) as Hz. fold t in Hz.
  intros H0. rewrite H0 in He.
  destruct t as [[cs e f] cw cn]. cbn [root _count_words _count_nodes] in *.
  subst cw. rewrite <- (dfs_length (Node cs e f) []) in He.
  assert (dfs (Node cs e f) [] [] = []) as Hd
    by (apply length_zero_iff_nil; lia).
  rewrite dfs_Node in Hd. apply app_eq_nil in Hd as [Hhead Hbelow].
  destruct e; [discriminate|].
  destruct cs as [|[c m] cs].
  - rewrite zero_scores_Node in Hz. cbn [orb andb below flat_map forallb] in Hz.
    rewrite andb_true_r in Hz. apply Z.eqb_eq in Hz. subst. reflexivity.
  - exfalso. rewrite dfs_below_cons in Hbelow.
    apply app_eq_nil in Hbelow as [Hm _].
    apply (in_use_has_item m _) in Hm; [exact Hm|].
    rewrite nodes_Node in Hu. cbn [tl] in Hu.
    rewrite below_cons, forallb_app, andb_true_iff in Hu. tauto.
Qed.

Lemma no_word_is_new_witness :
  _count_words (run_ops [Insert (w "cat") 5; Remove (w "cat")]) = 0 /\
  run_ops [Insert (w "cat") 5; Remove (w "cat")] = Trie_new.
Proof.
  split; [reflexivity|].
  apply (@no_word_is_new [Insert (w "cat") 5; Remove (w "cat")]). reflexivity.
Defined.

Lemma height_below_nodes cs :
  Forall (fun p => height (snd p) + 1 <= Z.of_nat (length (nodes (snd p))))
         cs ->
  cs <> [] ->
  py_max (map (fun p => height (snd p)) cs) + 1 <=
  Z.of_nat (length (below cs)).
Proof.
  induction 1 as [|[c n] cs Hn Hcs IH]; intros Hne; [congruence|].
  rewrite below_cons, length_app. cbn [snd] in Hn.
  destruct cs as [|q cs].
  - cbn [map py_max fold_left snd]. lia.
  - cbn [map snd]. cbn [map] in IH. rewrite py_max_cons.
    specialize (IH ltac:(congruence)).
    pose proof (height_nonneg n). lia.
Qed.

Lemma height_nodes n : height n + 1 <= Z.of_nat (length (nodes n)).
Proof.
  induction n as [cs e f IH] using TrieNode_ind.
  rewrite nodes_Node. cbn [length].
  destruct cs as [|p cs]; [cbn; lia|].
  pose proof (height_below_nodes IH ltac:(congruence)) as H.
  cbn [height]. lia.
Qed.

(** X9. In a state reached from [Trie()], [stats()] returns
    [(words, height, nodes)] with [0 <= words <= nodes] and
    [0 <= height < nodes]. *)
Theorem stats_bounds (ops : list op) :
  let '(words, hgt, count) := returns stats (run_ops ops) in
  0 <= words <= count /\ 0 <= hgt < count.
Proof.
  unfold returns, stats, bind, get, ret. cbn [fst].
  destruct (invariant_run_ops ops) as (_ & _ & Hn & He).
  rewrite Hn, He.
  pose proof (filter_length_le is_end (nodes (root (run_ops ops)))).
  pose proof (height_nodes (root (run_ops ops))).
  pose proof (height_nonneg (root (run_ops ops))). lia.
Qed.

(** ** [complete]: the words it returns *)

Lemma distinct_filter (f : word * Z -> bool) l :
  NoDup (map fst l) -> NoDup (map fst (filter f l)).
Proof.
  induction l as [|p l IH]; cbn [map filter]; intros H; [constructor|].
  inversion H as [|? ? Hn Hd]; subst.
  destruct (f p); cbn [map]; [|now apply IH].
  constructor; [|now apply IH].
  intros Hin. apply Hn. apply in_map_iff in Hin as (q & Eq & Hq).
  apply filter_In in Hq as [Hq _]. apply in_map_iff. now exists q.
Qed.

Lemma map_snd_swap (l : list (word * Z)) :
  map snd (map (fun p => (snd p, fst p)) l) = map fst l.
Proof. rewrite map_map. reflexivity. Qed.

(** The pairs kept and dropped by [complete], with what they are: stored
    words that start with the prefix, each under its own score, no word
    twice. *)
Lemma complete_kept (t : Trie) (prefix : word) (k : Z) :
  well_formed (root t) = true ->
  0 <= k ->
  let matching :=
    filter (fun p => starts_with prefix (fst p)) (returns items t) in
  exists kept dropped : list entry,
    returns (complete prefix k) t = map snd kept /\
    Permutation (map snd (kept ++ dropped)) (map fst matching) /\
    NoDup (map snd (kept ++ dropped)) /\
    (forall x, In x (kept ++ dropped) ->
       lookup (snd x) (root t) = Some (fst x) /\
       starts_with prefix (snd x) = true) /\
    Z.of_nat (length kept) = Z.min k (Z.of_nat (length matching)) /\
    StronglySorted (not_above key_ltb) kept /\
    (forall x d, In x kept -> In d dropped -> not_above entry_ltb d x).
Proof.
  intros Hwf Hk. cbv zeta.
  destruct (complete_selection t prefix Hwf Hk)
    as (kept & dropped & Hres & Hperm & Hlen & Hsort & Hdrop).
  exists kept, dropped.
  assert (Permutation (map snd (kept ++ dropped))
            (map fst (filter (fun p => starts_with prefix (fst p))
                             (returns items t)))) as Hwords
    by (rewrite <- map_snd_swap; now apply Permutation_map).
  repeat split; try assumption.
  - apply (Permutation_NoDup (Permutation_sym Hwords)).
    apply distinct_filter. now apply dfs_words_distinct.
  - apply (Permutation_in _ Hperm) in H.
    apply in_map_iff in H as ([W s] & <- & Hin). cbn [fst snd].
    apply filter_In in Hin as [Hin _].
    now apply (items_lookup t W s Hwf) in Hin.
  - apply (Permutation_in _ Hperm) in H.
    apply in_map_iff in H as ([W s] & <- & Hin). cbn [fst snd].
    now apply filter_In in Hin as [_ Hin].
Qed.




Lemma complete_negative prefix k t :
  k <= 0 -> returns (complete prefix k) t = [].
Proof.
  intros Hk. unfold returns. rewrite complete_unfold. cbn [fst].
  destruct (walk_node prefix (root t)); [|reflexivity].
  now rewrite offer_nothing.
Qed.

(** X11. Under unique keys, for any [k], every word that
    [complete(prefix, k)] returns starts with [prefix] and is stored, and no
    word is returned twice. *)
Theorem complete_sound (t : Trie) (prefix : word) (k : Z) :
  well_formed (root t) = true ->
  NoDup (returns (complete prefix k) t) /\
  forall W, In W (returns (complete prefix k) t) ->
    extends prefix W /\ returns (contains W) t = true.
Proof.
  intros Hwf. destruct (Z.le_gt_cases k 0) as [Hk|Hk].
  - rewrite complete_negative by exact Hk. split; [constructor|contradiction].
  - destruct (complete_kept t prefix Hwf (Z.lt_le_incl _ _ Hk))
      as (kept & dropped & -> & _ & Hnd & Hrank & _).
    rewrite map_app in Hnd. split; [now apply NoDup_app_remove_r in Hnd|].
    intros W HW. apply in_map_iff in HW as (x & <- & Hx).
    destruct (Hrank x (in_or_app _ _ _ (or_introl Hx))) as [Hl Hp].
    split; [now apply starts_with_extends|].
    unfold returns. rewrite contains_unfold. cbn [fst].
    fold (stored (snd x) (root t)). apply stored_lookup. congruence.
Qed.

Lemma complete_sound_witness :
  well_formed (root scenario) = true /\
  NoDup (returns (complete (w "ca") 2) scenario) /\
  (forall W, In W (returns (complete (w "ca") 2) scenario) ->
     extends (w "ca") W /\ returns (contains W) scenario = true).
Proof.
  split; [reflexivity|].
  apply (@complete_sound scenario (w "ca") 2). reflexivity.
Defined.

(** X12. Under unique keys, when [k] is at least the number of items whose
    word starts with [prefix], [complete(prefix, k)] returns all of these
    words, each once. *)
Theorem complete_all (t : Trie) (prefix : word) (k : Z) :
  well_formed (root t) = true ->
  let matching :=
    filter (fun p => starts_with prefix (fst p)) (returns items t) in
  Z.of_nat (length matching) <= k ->
  Permutation (returns (complete prefix k) t) (map fst matching).
Proof.
  intros Hwf. cbv zeta. intros Hk.
  assert (0 <= k) as Hk0 by lia.
  destruct (complete_kept t prefix Hwf Hk0)
    as (kept & dropped & -> & Hwords & _ & _ & Hlen & _).
  assert (dropped = []) as ->.
  { apply length_zero_iff_nil. apply Permutation_length in Hwords.
    rewrite !length_map, length_app in Hwords. lia. }
  now rewrite app_nil_r in Hwords.
Qed.

Lemma complete_all_witness :
  well_formed (root scenario) = true /\
  (let matching :=
     filter (fun p => starts_with (w "ca") (fst p)) (returns items scenario) in
   Z.of_nat (length matching) <= 5 /\
   Permutation (returns (complete (w "ca") 5) scenario) (map fst matching)).
Proof.
  assert (Z.of_nat
            (length (filter (fun p => starts_with (w "ca") (fst p))
                            (returns items scenario))) <= 5) as Hk
    by (cbn; lia).
  split; [reflexivity|]. split; [exact Hk|].
  exact (@complete_all scenario (w "ca") 5 eq_refl Hk).
Defined.





(** ** [do_load]: a trie from a list of pairs *)

Lemma do_load_run data :
  do_load data = run_ops (map (fun p => Insert (fst p) (snd p)) data).
Proof.
  unfold do_load, run_ops. generalize Trie_new.
  induction data as [|p data IH]; intros t; cbn [fold_left map];
    [reflexivity|apply IH].
Qed.

Lemma root_fold_insert data : forall t,
  root (fold_left (fun t p => after (insert (fst p) (snd p)) t) data t) =
  build data (root t).
Proof.
  unfold build. induction data as [|p data IH]; intros t; cbn [fold_left];
    [reflexivity|].
  rewrite IH, after_insert. reflexivity.
Qed.

Lemma lookup_build text data : forall node,
  lookup text (build data node) =
  fold_left (fun acc p => if word_eqb (fst p) text then Some (snd p) else acc)
            data (lookup text node).
Proof.
  unfold build. induction data as [|[W s] data IH]; intros node;
    cbn [fold_left fst snd]; [reflexivity|].
  rewrite IH. f_equal. unfold word_eqb.
  destruct (list_eq_dec ascii_dec W text) as [->|Hne].
  - apply lookup_insert_same.
  - apply lookup_insert_other. congruence.
Qed.

Lemma last_score_listed text (data : list (word * Z)) : forall acc,
  fold_left (fun acc p => if word_eqb (fst p) text then Some (snd p) else acc)
            data acc <> None <->
  acc <> None \/ In text (map fst data).
Proof.
  induction data as [|[W s] data IH]; intros acc; cbn [fold_left map fst snd In].
  - tauto.
  - rewrite IH. unfold word_eqb.
    destruct (list_eq_dec ascii_dec W text) as [->|Hne].
    + split; [tauto|]. intros _. left. discriminate.
    + tauto.
Qed.

(** X14. [do_load] builds, from any list of pairs, a trie whose [items()]
    lists a word with a score exactly when that score comes with the last
    pair of the list that carries the word; its [_count_words] is the
    number of distinct words of the list. *)
Theorem do_load_last_wins (data : list (word * Z)) :
  (forall W s, In (W, s) (returns items (do_load data)) <->
               last_score W data = Some s) /\
  _count_words (do_load data) =
    Z.of_nat (length (nodup (list_eq_dec ascii_dec) (map fst data))).
Proof.
  pose proof (invariant_run_ops (map (fun p => Insert (fst p) (snd p)) data))
    as (Hwf & _ & _ & He).
  rewrite <- do_load_run in Hwf, He.
  assert (forall W, lookup W (root (do_load data)) = last_score W data) as Hl.
  { intros W. unfold do_load. rewrite root_fold_insert.
    rewrite lookup_build. cbn [root Trie_new]. now rewrite lookup_new. }
  split.
  - intros W s. rewrite (items_lookup _ _ _ Hwf), Hl. reflexivity.
  - rewrite He, <- (dfs_length (root (do_load data)) []).
    rewrite <- (length_map fst). f_equal. apply Permutation_length.
    apply NoDup_Permutation.
    + now apply dfs_words_distinct.
    + apply NoDup_nodup.
    + intros W. rewrite nodup_In.
      pose proof (last_score_listed W data None) as Hlisted.
      fold (last_score W data) in Hlisted. rewrite <- Hl in Hlisted.
      split.
      * intros Hin. apply in_map_iff in Hin as ([W' s] & <- & Hin).
        apply (items_lookup (do_load data) W' s Hwf) in Hin.
        cbn [fst] in *. destruct Hlisted as [Hlisted _].
        destruct Hlisted as [H|H]; [congruence|congruence|exact H].
      * intros Hin.
        destruct (lookup W (root (do_load data))) as [s|] eqn:E.
        -- apply in_map_iff. exists (W, s). split; [reflexivity|].
           change (In (W, s) (returns items (do_load data))).
           now apply items_lookup.
        -- exfalso. apply (proj2 Hlisted); [now right|reflexivity].
Qed.

(** ** [items] then [do_load] *)

Lemma dfs_shift n : forall a b,
  dfs n (a ++ b) [] = map (fun p => (a ++ fst p, snd p)) (dfs n b []).
Proof.
  induction n as [cs e f IH] using TrieNode_ind. intros a b.
  rewrite !dfs_Node, map_app. f_equal; [now destruct e|].
  unfold dfs_below. rewrite map_over_flat_map.
  induction IH as [|[c m] cs Hm _ IHcs]; [reflexivity|].
  cbn [flat_map fst snd] in *. rewrite IHcs. f_equal.
  rewrite <- app_assoc. apply Hm.
Qed.

Lemma dfs_under c n :
  dfs n [c] [] = map (fun p => (c :: fst p, snd p)) (dfs n [] []).
Proof. apply (dfs_shift n [c] []). Qed.

Lemma build_app l1 l2 node : build (l1 ++ l2) node = build l2 (build l1 node).
Proof. apply fold_left_app. Qed.

Lemma dict_set_last V ch (v x : V) d :
  dict_get ch d = None -> dict_set ch v (d ++ [(ch, x)]) = d ++ [(ch, v)].
Proof.
  intros H. rewrite <- (@dict_set_new _ ch x d H), dict_set_set.
  now apply dict_set_new.
Qed.

(** The inserts of words that start with [c] only touch the child at [c],
    here the last one. *)
Lemma build_under c done e f l : forall x,
  dict_get c done = None ->
  build (map (fun p => (c :: fst p, snd p)) l) (Node (done ++ [(c, x)]) e f) =
  Node (done ++ [(c, build l x)]) e f.
Proof.
  induction l as [|[W s] l IH]; intros x H; [reflexivity|].
  unfold build in *. cbn [map fold_left fst snd].
  rewrite insert_loop_cons. cbv zeta. cbn [children is_end freq].
  rewrite (@dict_get_new _ c x done H).
  destruct (insert_loop W s x) as [[x' created] fresh]. cbn [fst].
  rewrite (@dict_set_last _ c x' x done H). now apply IH.
Qed.

Lemma build_first c done e f l :
  l <> [] ->
  dict_get c done = None ->
  build (map (fun p => (c :: fst p, snd p)) l) (Node done e f) =
  Node (done ++ [(c, build l TrieNode_new)]) e f.
Proof.
  destruct l as [|[W s] l]; [congruence|]. intros _ H.
  unfold build. cbn [map fold_left fst snd].
  rewrite insert_loop_cons. cbv zeta. cbn [children is_end freq]. rewrite H.
  destruct (insert_loop W s TrieNode_new) as [[x' created] fresh]. cbn [fst].
  rewrite (@dict_set_new _ c x' done H).
  now apply (build_under c done e f l x').
Qed.

(** Inserting the items of a node, in the order of [dfs], into [TrieNode()]
    builds the node again. *)
Lemma build_dfs n :
  well_formed n = true ->
  forallb in_use (tl (nodes n)) = true ->
  zero_scores n = true ->
  build (dfs n [] []) TrieNode_new = n.
Proof.
  induction n as [cs e f IH] using TrieNode_ind. intros Hwf Hu Hz.
  rewrite dfs_Node, build_app.
  rewrite zero_scores_Node in Hz. apply andb_true_iff in Hz as [He Hz].
  rewrite well_formed_Node in Hwf. apply andb_true_iff in Hwf as [Hd Hwf].
  apply distinct_NoDup in Hd. rewrite nodes_Node in Hu. cbn [tl] in Hu.
  match goal with
  | |- build _ (build ?head _) = _ =>
      assert (build head TrieNode_new = Node [] e f) as ->
  end.
  { destruct e; [reflexivity|]. cbn [orb] in He. apply Z.eqb_eq in He.
    now subst. }
  assert (forall todo done, cs = done ++ todo ->
            build (dfs_below [] todo) (Node done e f) = Node cs e f) as Hloop.
  { intros todo. induction todo as [|[c m] todo IHt]; intros done E.
    - rewrite app_nil_r in E. now subst.
    - rewrite dfs_below_cons, build_app. cbn [app]. rewrite dfs_under.
      assert (In (c, m) cs) as Hin by (subst cs; apply in_elt).
      rewrite Forall_forall in IH. specialize (IH _ Hin). cbn [snd] in IH.
      assert (forallb in_use (nodes m) = true /\
              forallb (fun x => distinct (map fst (children x))) (nodes m)
              = true /\
              forallb (fun x => is_end x || (freq x =? 0)) (nodes m) = true)
        as (Hum & Hwm & Hzm).
      { subst cs. revert Hu Hwf Hz. split_nodes. tauto. }
      rewrite build_first.
      + rewrite IH.
        * apply IHt. subst cs. now rewrite <- app_assoc.
        * exact Hwm.
        * rewrite in_use_nodes in Hum. apply andb_true_iff in Hum. tauto.
        * exact Hzm.
      + now apply in_use_has_item.
      + apply dict_get_none. subst cs. rewrite map_app in Hd.
        cbn [map fst] in Hd. apply NoDup_remove_2 in Hd.
        intros Hc. apply Hd. apply in_or_app. now left. }
  now apply (Hloop cs []).
Qed.

(** X15. For a state reached from [Trie()], the trie that [do_load] builds
    from its [items()] is that state again: the same tree, with the
    children of every node in the same order, and the same counters. *)
Theorem items_then_load (ops : list op) :
  do_load (returns items (run_ops ops)) = run_ops ops.
Proof.
  set (t := run_ops ops).
  destruct (invariant_run_ops ops) as (Hwf & Hu & Hn & He).
  fold t in Hwf, Hu, Hn, He.
  pose proof (zero_scores_run_ops ops) as Hz. fold t in Hz.
  set (data := returns items t).
  pose proof (invariant_run_ops (map (fun p => Insert (fst p) (snd p)) data))
    as (_ & _ & Hn' & He').
  rewrite <- do_load_run in Hn', He'.
  assert (root (do_load data) = root t) as Hroot.
  { unfold do_load. rewrite root_fold_insert. cbn [root Trie_new].
    now apply build_dfs. }
  rewrite Hroot in Hn', He'.
  destruct (do_load data) as [r' cw' cn'], t as [r cw cn].
  cbn [root _count_words _count_nodes] in *. subst. f_equal; lia.
Qed.

(** ** [_walk]: the path *)

Lemma linked_snoc path : forall parent c0 child ch,
  linked (path ++ [(parent, c0)]) ->
  dict_get ch (children parent) = Some child ->
  linked ((path ++ [(parent, c0)]) ++ [(child, ch)]).
Proof.
  induction path as [|[p c] path IH]; intros parent c0 child ch Hl Hg.
  - cbn. tauto.
  - cbn [app] in *. cbn [linked] in *.
    destruct path as [|[q d] path]; cbn [app] in *.
    + destruct Hl as [Hpq _]. split; [exact Hpq|]. cbn. tauto.
    + destruct Hl as [Hpq Hl]. split; [exact Hpq|]. now apply IH.
Qed.

Lemma last_cons_default A (x d : A) l : last (x :: l) d = last l x.
Proof.
  revert x d. induction l as [|y l IH]; intros x d; [reflexivity|].
  change (last (x :: y :: l) d) with (last (y :: l) d).
  now rewrite !IH.
Qed.

Lemma walk_loop_path text : forall current c0 pre,
  linked (pre ++ [(current, c0)]) ->
  match walk_loop text current (pre ++ [(current, c0)]) with
  | (Some node, path) =>
      map snd path = map snd pre ++ c0 :: text /\
      hd (current, c0) path = hd (current, c0) (pre ++ [(current, c0)]) /\
      last path (current, c0) = (node, last text c0) /\
      linked path
  | (None, path) => path = []
  end.
Proof.
  induction text as [|ch rest IH]; intros current c0 pre Hl; cbn [walk_loop].
  - rewrite map_app, last_last. cbn [map snd last]. tauto.
  - destruct (dict_get ch (children current)) as [nxt|] eqn:G; [|reflexivity].
    specialize (IH nxt ch (pre ++ [(current, c0)]) (linked_snoc _ _ _ _ Hl G)).
    destruct (walk_loop rest nxt ((pre ++ [(current, c0)]) ++ [(nxt, ch)]))
      as [[node|] path]; [|exact IH].
    destruct IH as (Hsym & Hhd & Hlast & Hlinked).
    rewrite map_app, <- app_assoc in Hsym. cbn [map snd app] in Hsym.
    rewrite last_cons_default. repeat split; try assumption.
    + destruct path as [|e path]; [destruct pre; discriminate|].
      cbn [hd] in *. rewrite Hhd. now destruct pre.
    + destruct path as [|e path]; [destruct pre; discriminate|].
      rewrite <- Hlast. clear. revert e.
      induction path as [|e' path IHp]; intros e; [reflexivity|].
      change (last (e :: e' :: path) (current, c0))
        with (last (e' :: path) (current, c0)).
      change (last (e :: e' :: path) (nxt, ch))
        with (last (e' :: path) (nxt, ch)).
      apply IHp.
Qed.

(** X16. When [_walk(text)] finds a node, its path starts at the root,
    carries ['']  and then the symbols of [text], one entry each, ends at
    the node returned, and every entry holds the child, under its symbol,
    of the entry before; when it finds none, the path is empty. *)
Theorem walk_path (t : Trie) (text : word) :
  match _walk t text with
  | (Some node, path) =>
      map snd path = no_char :: text /\
      hd (root t, no_char) path = (root t, no_char) /\
      last path (root t, no_char) = (node, last text no_char) /\
      linked path
  | (None, path) => path = []
  end.
Proof.
  unfold _walk.
  apply (walk_loop_path text (root t) no_char []). cbn. exact I.
Qed.
